(** * The adaptive concurrency limiter of [grpc/grpcserver/concurrency.go]

    A shallow embedding of the AIMD limiter ([limiter], [transaction],
    [start], [finish] and the constructor [Limiter]) together with the
    machine arithmetic it runs on: [int64] counters that wrap around and the
    binary64 product [float64(l.limit) * l.backoffRatio].

    Every method body runs between [l.Lock()] and the deferred [l.Unlock()],
    so a concurrent execution is a sequence of whole calls; the embedding
    therefore treats each call as one atomic transition of the limiter. *)

From Stdlib Require Import ZArith NArith Bool List Lia.
From Stdlib Require Import Floats.SpecFloat.
Import ListNotations.

#[local] Open Scope Z_scope.

(** ** Go's [int64] *)

Module Int64.

Definition min_int64 : Z := - 2 ^ 63.
Definition max_int64 : Z := 2 ^ 63 - 1.

Definition in_range (z : Z) : Prop := min_int64 <= z <= max_int64.

(** Two's complement wrap-around of a mathematical integer. *)
Definition wrap (z : Z) : Z := (z + 2 ^ 63) mod 2 ^ 64 - 2 ^ 63.

(** [x++] on an [int64]. *)
Definition incr (x : Z) : Z := wrap (x + 1).

(** [x / y] on [int64]: the quotient is truncated towards zero. *)
Definition div (x y : Z) : Z := wrap (Z.quot x y).

End Int64.

(** ** Go's [float64] (IEEE 754 binary64) *)

Module Float64.

Definition prec : Z := 53.
Definition emax : Z := 1024.

Definition float64 : Type := spec_float.

Definition valid (f : float64) : bool := valid_binary prec emax f.

(** [float64(z)] for an integer [z]: rounded to the nearest, ties to even. *)
Definition of_int64 (z : Z) : float64 := binary_normalize prec emax z 0 false.

(** [x * y] on [float64]. *)
Definition mul (x y : float64) : float64 := SFmul prec emax x y.

(** The integer part of a finite float, the fraction discarded;
    [None] for infinities and NaN. *)
Definition trunc (f : float64) : option Z :=
  match f with
  | S754_zero _ => Some 0
  | S754_finite s m e =>
      let a := if 0 <=? e then Z.pos m * 2 ^ e else Z.pos m / 2 ^ (- e) in
      Some (if s then - a else a)
  | S754_infinity _ | S754_nan => None
  end.

(** The greatest integer below a finite float; [None] for infinities and
    NaN. *)
Definition floor (f : float64) : option Z :=
  match f with
  | S754_zero _ => Some 0
  | S754_finite s m e =>
      let n := if s then Z.neg m else Z.pos m in
      Some (if 0 <=? e then n * 2 ^ e else n / 2 ^ (- e))
  | S754_infinity _ | S754_nan => None
  end.

(** Neither an infinity nor NaN. *)
Definition is_finite (f : float64) : bool :=
  match f with
  | S754_zero _ | S754_finite _ _ _ => true
  | S754_infinity _ | S754_nan => false
  end.

Definition zero : float64 := S754_zero false.
Definition one : float64 := S754_finite false 4503599627370496 (- 52).

(** [0 < f < 1] for a well-formed binary64 value. *)
Definition in_unit_interval (f : float64) : bool :=
  valid f && SFltb zero f && SFltb f one.

(** [f] is a zero or a finite float of magnitude at most [K * 2 ^ c]. *)
Definition below (K c : Z) (f : float64) : Prop :=
  match f with
  | S754_zero _ => True
  | S754_finite _ m e => e <= c /\ Z.pos m <= K * 2 ^ (c - e)
  | S754_infinity _ | S754_nan => False
  end.

(** What [k] right shifts of the mantissa [M] leave in a shift record: the
    quotient, and cleared round and sticky bits when nothing was lost. *)
Definition shr_inv (M k : Z) (mrs : shr_record) : Prop :=
  shr_m mrs = M / 2 ^ k /\
  (M mod 2 ^ k = 0 -> shr_r mrs = false /\ shr_s mrs = false).

Section Conversion.

(** Go leaves [int64(f)] implementation-dependent when [f] is NaN, an
    infinity or has an integer part outside [int64]; [unrepresentable]
    is whatever the platform yields there. *)
Variable unrepresentable : float64 -> Z.

(** [int64(f)]. *)
Definition to_int64 (f : float64) : Z :=
  match trunc f with
  | Some z =>
      if (Int64.min_int64 <=? z) && (z <=? Int64.max_int64) then z
      else Int64.wrap (unrepresentable f)
  | None => Int64.wrap (unrepresentable f)
  end.

End Conversion.

End Float64.

Import Float64(float64).

(** ** gRPC status codes and [status.Code] *)

Module codes.

(** [codes.Code] is a [uint32]; the named constants are those of
    [google.golang.org/grpc/codes]. *)
Definition Code : Type := N.

Definition OK : Code := 0%N.
Definition Canceled : Code := 1%N.
Definition Unknown : Code := 2%N.
Definition InvalidArgument : Code := 3%N.
Definition DeadlineExceeded : Code := 4%N.
Definition NotFound : Code := 5%N.
Definition AlreadyExists : Code := 6%N.
Definition PermissionDenied : Code := 7%N.
Definition ResourceExhausted : Code := 8%N.
Definition FailedPrecondition : Code := 9%N.
Definition Aborted : Code := 10%N.
Definition OutOfRange : Code := 11%N.
Definition Unimplemented : Code := 12%N.
Definition Internal : Code := 13%N.
Definition Unavailable : Code := 14%N.
Definition DataLoss : Code := 15%N.
Definition Unauthenticated : Code := 16%N.

End codes.

Module status.

(** A Go [error] as [status.Code] sees it: the nil error, an error that
    carries a gRPC status, or any other error value. *)
Inductive error : Type :=
| nil
| withStatus (c : codes.Code)
| opaque.

(** [status.Code(err)]: [OK] for nil, the carried code for a status
    error, [Unknown] for everything else. *)
Definition Code (err : error) : codes.Code :=
  match err with
  | nil => codes.OK
  | withStatus c => c
  | opaque => codes.Unknown
  end.

End status.

(** ** The limiter *)

Record limiter : Type := mkLimiter {
  backoffRatio : float64;
  inflight : Z;
  limit : Z
}.

Record transaction : Type := mkTransaction {
  tx_inflight : Z;
  tx_limit : Z
}.

Definition set_inflight (l : limiter) (n : Z) : limiter :=
  mkLimiter (backoffRatio l) n (limit l).

Definition set_limit (l : limiter) (n : Z) : limiter :=
  mkLimiter (backoffRatio l) (inflight l) n.

(** The state [Limiter(initial, backoffRatio)] allocates before it returns
    the interceptor: [inflight] is the zero value. *)
Definition Limiter (initial : Z) (ratio : float64) : limiter :=
  {| backoffRatio := ratio; inflight := 0; limit := initial |}.

(** [l.start()]: the limiter after the call, the [*transaction] ([None] is
    the nil pointer) and the [bool]. *)
Definition start (l : limiter) : limiter * (option transaction * bool) :=
  if inflight l >? limit l then (l, (None, false))
  else
    let l' := set_inflight l (Int64.incr (inflight l)) in
    (l', (Some (mkTransaction (inflight l') (limit l')), true)).

(** The [case codes.Canceled, codes.DeadlineExceeded, codes.Unavailable]
    arm of the switch in [finish]. *)
Definition overload (c : codes.Code) : bool :=
  (c =? codes.Canceled)%N || (c =? codes.DeadlineExceeded)%N
  || (c =? codes.Unavailable)%N.

Section Finish.

Variable unrepresentable : float64 -> Z.

(** [int64(float64(l.limit) * l.backoffRatio)]. *)
Definition backoff (l : limiter) : Z :=
  Float64.to_int64 unrepresentable
    (Float64.mul (Float64.of_int64 (limit l)) (backoffRatio l)).

(** [l.finish(tx, err)]: the limiter after the call, or [None] when the
    call panics on [tx.limit] with a nil [tx]. *)
Definition finish (tx : option transaction) (err : status.error)
    (l : limiter) : option limiter :=
  if overload (status.Code err) then
    match tx with
    | None => None
    | Some t =>
        if limit l >=? tx_limit t then
          let lim := backoff l in
          let lim := if lim <? 1 then 1 else lim in
          Some (set_limit l lim)
        else Some l
    end
  else
    if inflight l >? Int64.div (limit l) 2 then
      Some (set_limit l (Int64.incr (limit l)))
    else Some l.

End Finish.

(** ** Sequences of calls *)

(** One call on the shared limiter.  [Finish] carries the arguments the
    caller passes; a [Start] result is observed through [start]. *)
Inductive call : Type :=
| Start
| Finish (tx : option transaction) (err : status.error).

Section Runs.

Variable unrepresentable : float64 -> Z.

Definition step (c : call) (l : limiter) : option limiter :=
  match c with
  | Start => Some (fst (start l))
  | Finish tx err => finish unrepresentable tx err l
  end.

(** The limiter after the calls [cs], in order; [None] once a call
    panicked. *)
Fixpoint run (cs : list call) (l : limiter) : option limiter :=
  match cs with
  | [] => Some l
  | c :: cs' =>
      match step c l with
      | Some l' => run cs' l'
      | None => None
      end
  end.

(** The number of [Start] calls in a sequence. *)
Fixpoint count_starts (cs : list call) : Z :=
  match cs with
  | [] => 0
  | Start :: cs' => 1 + count_starts cs'
  | Finish _ _ :: cs' => count_starts cs'
  end.

(** The states a limiter started in [l0] can be in, every call being made
    from a state that satisfies [P]. *)
Inductive reachable_while (P : limiter -> Prop) (l0 : limiter)
  : limiter -> Prop :=
| reach_init : reachable_while P l0 l0
| reach_step (l l' : limiter) (c : call) :
    reachable_while P l0 l -> P l -> step c l = Some l' ->
    reachable_while P l0 l'.

Definition reachable : limiter -> limiter -> Prop :=
  reachable_while (fun _ => True).

End Runs.

(** The limiter after [n] calls of [start] in a row. *)
Definition starts (n : N) (l : limiter) : limiter :=
  N.iter n (fun l' => fst (start l')) l.

(** Whether the [n]-th call of [start] in a row (counting from 1) is
    admitted. *)
Definition admitted_nth (n : N) (l : limiter) : bool :=
  snd (snd (start (starts (N.pred n) l))).

(** Both counters hold [int64] values. *)
Definition wf (l : limiter) : Prop :=
  Int64.in_range (inflight l) /\ Int64.in_range (limit l).

(** ** Sample values *)

(** The binary64 values nearest to 0.1, 0.5 and 1/3. *)
Definition ratio_tenth : float64 := S754_finite false 7205759403792794 (-56).
Definition ratio_half : float64 := S754_finite false 4503599627370496 (-53).
Definition ratio_third : float64 := S754_finite false 6004799503160661 (-54).

(** The amd64 result of an unrepresentable conversion. *)
Definition indefinite (_ : float64) : Z := Int64.min_int64.

(** ** The interceptor

    The closure [Limiter] returns.  It runs [start], hands the request to
    the handler when that admits it and leaves through the deferred
    [finish].  The handler runs outside the lock, so other calls interleave
    between [enter] and [deferred]. *)

(** The three measures the package declares; [(m, v)] is [m.M(v)]. *)
Inductive measure : Type :=
| RequestLimit
| InflightRequests
| RejectedRequests.

Definition measurement : Type := (measure * Z)%type.

(** [status.Error(codes.Unavailable, "server concurrency limit reached")];
    [status.error] keeps the code, which is all [status.Code] reads. *)
Definition limitReached : status.error := status.withStatus codes.Unavailable.

(** How the interceptor goes on after [start]: it returns [nil, err] at
    once, or it calls the handler with [finish] deferred on [t]. *)
Inductive entered : Type :=
| Refused (err : status.error)
| Handling (t : transaction).

(** The interceptor up to the call of the handler: the limiter, what
    [stats.Record] received and how it goes on; [None] if [tx.limit] were
    read through a nil [tx]. *)
Definition enter (l : limiter)
  : option (limiter * list measurement * entered) :=
  let '(l', (tx, ok)) := start l in
  if negb ok then Some (l', [(RejectedRequests, 1)], Refused limitReached)
  else
    match tx with
    | Some t =>
        Some (l',
              [(RequestLimit, tx_limit t); (InflightRequests, tx_inflight t)],
              Handling t)
    | None => None
    end.

Section Interceptor.

Variable unrepresentable : float64 -> Z.

(** The type of the responses handlers return. *)
Variable response : Type.

(** What a call yields: a response ([None] is nil) and an error, or a
    panic. *)
Inductive outcome : Type :=
| Returned (resp : option response) (err : status.error)
| Panicked.

(** The deferred [l.finish(tx, err)].  Its arguments are evaluated when the
    [defer] statement runs, before the handler is called: [err], the named
    result, is still nil then, whatever the handler returns later. *)
Definition deferred (t : transaction) (l : limiter) : option limiter :=
  finish unrepresentable (Some t) status.nil l.

(** One call of the interceptor with nothing interleaved, the handler
    yielding [h]: the limiter, the measurements and what the caller gets;
    [None] if the interceptor's own code panicked. *)
Definition interceptor (h : outcome) (l : limiter)
  : option (limiter * list measurement * outcome) :=
  match enter l with
  | Some (l', ms, Refused err) => Some (l', ms, Returned None err)
  | Some (l', ms, Handling t) =>
      match deferred t l' with
      | Some l'' => Some (l'', ms, h)
      | None => None
      end
  | None => None
  end.

(** A server behind the interceptor: the shared limiter and the
    transactions of the pending calls, those that [start] admitted and
    whose deferred [finish] has not run yet, the handler still running or
    already back. *)
Record server : Type := mkServer {
  shared : limiter;
  running : list transaction
}.

(** A request arrives and goes through [start], or the [i]-th pending
    call, its handler having yielded [h], runs its deferred [finish]. *)
Inductive event : Type :=
| Arrive
| Finished (i : nat) (h : outcome).

Definition serve (e : event) (s : server) : option server :=
  match e with
  | Arrive =>
      match enter (shared s) with
      | Some (l', _, Handling t) => Some (mkServer l' (running s ++ [t]))
      | Some (l', _, Refused _) => Some (mkServer l' (running s))
      | None => None
      end
  | Finished i _ =>
      match nth_error (running s) i with
      | Some t =>
          match deferred t (shared s) with
          | Some l' =>
              Some (mkServer l'
                      (firstn i (running s) ++ skipn (S i) (running s)))
          | None => None
          end
      | None => None
      end
  end.

(** The server after the events [es], in order; [None] when an event names
    no pending call or the interceptor panicked. *)
Fixpoint serve_all (es : list event) (s : server) : option server :=
  match es with
  | [] => Some s
  | e :: es' =>
      match serve e s with
      | Some s' => serve_all es' s'
      | None => None
      end
  end.

Fixpoint count_arrivals (es : list event) : Z :=
  match es with
  | [] => 0
  | Arrive :: es' => 1 + count_arrivals es'
  | Finished _ _ :: es' => count_arrivals es'
  end.

Fixpoint count_finished (es : list event) : Z :=
  match es with
  | [] => 0
  | Arrive :: es' => count_finished es'
  | Finished _ _ :: es' => 1 + count_finished es'
  end.

(** Calls served one after the other, each through its deferred [finish]
    before the next request arrives. *)
Fixpoint one_by_one (hs : list outcome) : list event :=
  match hs with
  | [] => []
  | h :: hs' => Arrive :: Finished 0 h :: one_by_one hs'
  end.

End Interceptor.

Arguments Returned {response} resp err.
Arguments Panicked {response}.
Arguments Arrive {response}.
Arguments Finished {response} i h.
Arguments interceptor unrepresentable {response} h l.
Arguments serve unrepresentable {response} e s.
Arguments serve_all unrepresentable {response} es s.
Arguments count_arrivals {response} es.
Arguments count_finished {response} es.
Arguments one_by_one {response} hs.

(** The books of a server balance: the limit is a natural [int64], every
    running call was counted in [inflight], and [inflight] exceeds the limit
    by no more than the number of running calls and by no more than 1. *)
Definition balanced (s : server) : Prop :=
  0 <= limit (shared s) <= Int64.max_int64 /\
  Z.of_nat (length (running s)) <= inflight (shared s) /\
  inflight (shared s) <= limit (shared s) + Z.of_nat (length (running s)) /\
  inflight (shared s) <= limit (shared s) + 1.

(** A set round bit after [k] right shifts of [M] means that at least half
    a unit was shifted out. *)
Definition shr_half (M k : Z) (mrs : shr_record) : Prop :=
  shr_r mrs = true -> 2 ^ k <= 2 * (M mod 2 ^ k).

(** The number of [Finish] calls whose outcome is not an overload signal. *)
Fixpoint count_other (cs : list call) : Z :=
  match cs with
  | [] => 0
  | Start :: cs' => count_other cs'
  | Finish _ err :: cs' =>
      (if overload (status.Code err) then 0 else 1) + count_other cs'
  end.

(** ** The decrease in exact arithmetic

    The product in the formula [max(1, floor(limit * backoffRatio))] read
    without rounding: a finite float stands for the real number
    [(-1)^s * m * 2^e], and [exact_floor z r] is the floor of [z] times
    that number.  [None] for an infinity or NaN. *)
Definition exact_floor (z : Z) (r : float64) : option Z :=
  match r with
  | S754_zero _ => Some 0
  | S754_finite s m e =>
      let p := z * (if s then Z.neg m else Z.pos m) in
      Some (if 0 <=? e then p * 2 ^ e else p / 2 ^ (- e))
  | S754_infinity _ | S754_nan => None
  end.

(** * Properties *)

(** ** [int64] arithmetic *)

Lemma wrap_in_range (z : Z) : Int64.in_range (Int64.wrap z).
Proof.
  unfold Int64.in_range, Int64.wrap, Int64.min_int64, Int64.max_int64.
  pose proof (Z.mod_pos_bound (z + 2 ^ 63) (2 ^ 64) ltac:(lia)). lia.
Qed.

Lemma wrap_id (z : Z) : Int64.in_range z -> Int64.wrap z = z.
Proof.
  unfold Int64.in_range, Int64.wrap, Int64.min_int64, Int64.max_int64.
  intros H. rewrite Z.mod_small by lia. lia.
Qed.

Lemma incr_below_max (x : Z) :
  Int64.in_range x -> x < Int64.max_int64 -> Int64.incr x = x + 1.
Proof.
  intros H Hlt. unfold Int64.incr. apply wrap_id.
  unfold Int64.in_range in *. lia.
Qed.

Lemma incr_max : Int64.incr Int64.max_int64 = Int64.min_int64.
Proof. reflexivity. Qed.

Lemma div_two (x : Z) : Int64.in_range x -> Int64.div x 2 = Z.quot x 2.
Proof.
  intros H. unfold Int64.div. apply wrap_id.
  unfold Int64.in_range, Int64.min_int64, Int64.max_int64 in *.
  pose proof (Z.quot_rem' x 2) as E.
  pose proof (Z.rem_bound_abs x 2 ltac:(lia)) as B.
  lia.
Qed.

(** ** binary64 rounding

    The rounding of [SpecFloat] never carries a value past a bound that is
    itself representable at the rounding exponent; this bounds
    [float64(limit) * backoffRatio] for a ratio in (0,1). *)

Ltac pow_pos := apply Z.pow_pos_nonneg; lia.

Lemma digits2_size (p : positive) : digits2_pos p = Pos.size p.
Proof. induction p; cbn; congruence. Qed.

Lemma Zdigits2_le (M k : Z) : 0 < M -> 0 <= k -> M < 2 ^ k -> Zdigits2 M <= k.
Proof.
  intros HM Hk Hlt. destruct M as [| p | p]; try lia. cbn.
  rewrite digits2_size.
  pose proof (Pos.size_le p) as H.
  assert (H' : 2 ^ Z.pos (Pos.size p) <= 2 * Z.pos p).
  { change 2 with (Z.pos 2) at 1. rewrite <- Pos2Z.inj_pow.
    change (2 * Z.pos p) with (Z.pos p~0). apply Pos2Z.pos_le_pos. exact H. }
  destruct (Z_lt_le_dec k (Z.pos (Pos.size p))) as [Hc | Hc]; [| exact Hc].
  exfalso.
  assert (2 ^ (k + 1) <= 2 ^ Z.pos (Pos.size p))
    by (apply Z.pow_le_mono_r; lia).
  rewrite Z.pow_add_r in H0 by lia. lia.
Qed.

Lemma mod_pow_succ (M k : Z) :
  0 <= k -> M mod 2 ^ (k + 1) = 0 ->
  M mod 2 ^ k = 0 /\ (M / 2 ^ k) mod 2 = 0.
Proof.
  intros Hk H.
  assert (Hp : 0 < 2 ^ k) by pow_pos.
  pose proof (Z.div_mod M (2 ^ (k + 1))
                ltac:(rewrite Z.pow_add_r by lia; lia)) as E.
  rewrite H, Z.add_0_r, Z.pow_add_r in E by lia.
  set (q := M / (2 ^ k * 2 ^ 1)) in E.
  assert (EM : M = (2 * q) * 2 ^ k) by (rewrite E; change (2 ^ 1) with 2; ring).
  rewrite EM. rewrite Z.mod_mul, Z.div_mul by lia.
  split; [reflexivity |]. rewrite Z.mul_comm. apply Z.mod_mul. lia.
Qed.

Lemma shr_1_inv (M k : Z) (mrs : shr_record) :
  0 <= M -> 0 <= k ->
  Float64.shr_inv M k mrs -> Float64.shr_inv M (k + 1) (shr_1 mrs).
Proof.
  intros HM Hk [Hm Hx].
  assert (Hp : 0 < 2 ^ k) by pow_pos.
  assert (Hd : M / 2 ^ (k + 1) = Z.div2 (M / 2 ^ k)).
  { rewrite Z.div2_div, Z.div_div, Z.pow_add_r by lia. reflexivity. }
  assert (Hnn : 0 <= M / 2 ^ k) by (apply Z.div_pos; lia).
  destruct mrs as [m r s]. cbn in Hm, Hx. subst m.
  unfold Float64.shr_inv. rewrite Hd.
  destruct (M / 2 ^ k) as [| p | p] eqn:Eq;
    [| destruct p as [p | p |] | lia]; cbn.
  - split; [reflexivity |]. intros H0.
    destruct (mod_pow_succ M k Hk H0) as [H1 _].
    destruct (Hx H1) as [-> ->]. split; reflexivity.
  - split; [reflexivity |]. intros H0.
    destruct (mod_pow_succ M k Hk H0) as [_ H2]. rewrite Eq in H2.
    rewrite Pos2Z.inj_xI in H2. exfalso.
    rewrite Z.add_comm, Z.mul_comm, Z.mod_add in H2 by lia. discriminate.
  - split; [reflexivity |]. intros H0.
    destruct (mod_pow_succ M k Hk H0) as [H1 _].
    destruct (Hx H1) as [-> ->]. split; reflexivity.
  - split; [reflexivity |]. intros H0.
    destruct (mod_pow_succ M k Hk H0) as [_ H2]. rewrite Eq in H2.
    discriminate.
Qed.

Lemma iter_pos_inv {A : Type} (f : A -> A) (I : Z -> A -> Prop) :
  (forall k x, 0 <= k -> I k x -> I (k + 1) (f x)) ->
  forall p k x, 0 <= k -> I k x -> I (k + Z.pos p) (iter_pos f p x).
Proof.
  intros Hf. induction p as [p IH | p IH |]; intros k x Hk Hx; cbn.
  - replace (k + Z.pos p~1) with (k + 1 + Z.pos p + Z.pos p) by lia.
    apply IH; [lia |]. apply IH; [lia |]. now apply Hf.
  - replace (k + Z.pos p~0) with (k + Z.pos p + Z.pos p) by lia.
    apply IH; [lia |]. now apply IH.
  - now apply Hf.
Qed.

Lemma shr_inv_0 (M : Z) :
  Float64.shr_inv M 0 (Build_shr_record M false false).
Proof. split; cbn; [now rewrite Z.div_1_r | auto]. Qed.

Lemma shr_fexp_exact (M E : Z) :
  0 <= M ->
  exists n,
    0 <= n /\
    snd (shr_fexp Float64.prec Float64.emax M E loc_Exact) = E + n /\
    E + n = Z.max E (fexp Float64.prec Float64.emax (Zdigits2 M + E)) /\
    Float64.shr_inv M n
      (fst (shr_fexp Float64.prec Float64.emax M E loc_Exact)).
Proof.
  intros HM. unfold shr_fexp, shr.
  cbn [shr_record_of_loc].
  destruct (fexp Float64.prec Float64.emax (Zdigits2 M + E) - E)
    as [| p | p] eqn:Ed.
  - exists 0. cbn [fst snd].
    split; [lia |]. split; [lia |]. split; [lia |]. apply shr_inv_0.
  - exists (Z.pos p). cbn [fst snd].
    split; [lia |]. split; [reflexivity |]. split; [lia |].
    apply (iter_pos_inv shr_1 (Float64.shr_inv M)
             (fun k x Hk => shr_1_inv M k x HM Hk) p 0 _ (Z.le_refl 0)).
    apply shr_inv_0.
  - exists 0. cbn [fst snd].
    split; [lia |]. split; [lia |]. split; [lia |]. apply shr_inv_0.
Qed.

Lemma round_nearest_even_inv (M n : Z) (mrs : shr_record) :
  Float64.shr_inv M n mrs ->
  let m := round_nearest_even (shr_m mrs) (loc_of_shr_record mrs) in
  (M mod 2 ^ n = 0 -> m = M / 2 ^ n) /\ M / 2 ^ n <= m <= M / 2 ^ n + 1.
Proof.
  intros [Hm Hx]. destruct mrs as [m r s]. cbn in *. subst m. split.
  - intros H0. destruct (Hx H0) as [-> ->]. reflexivity.
  - destruct r, s; cbn; try lia.
    destruct (Z.even (M / 2 ^ n)); lia.
Qed.

Lemma fexp_le (M E K c : Z) :
  0 <= M -> 0 < K < 2 ^ Float64.prec ->
  emin Float64.prec Float64.emax <= c -> E <= c ->
  M <= K * 2 ^ (c - E) ->
  fexp Float64.prec Float64.emax (Zdigits2 M + E) <= c.
Proof.
  intros HM HK Hc HE Hle. unfold fexp. apply Z.max_lub; [| exact Hc].
  destruct (Z.eq_dec M 0) as [-> | Hn]; [cbn; unfold Float64.prec; lia |].
  assert (Hp : 0 < 2 ^ (c - E)) by pow_pos.
  assert (Hlt : M < 2 ^ (Float64.prec + (c - E))).
  { rewrite Z.pow_add_r by (unfold Float64.prec; lia). nia. }
  pose proof (Zdigits2_le M (Float64.prec + (c - E)) ltac:(lia)
                ltac:(unfold Float64.prec; lia) Hlt).
  lia.
Qed.

Lemma binary_round_aux_below (s : bool) (M E K c : Z) :
  0 < M -> 0 < K < 2 ^ Float64.prec ->
  emin Float64.prec Float64.emax <= c <= Float64.emax - Float64.prec ->
  E <= c -> M <= K * 2 ^ (c - E) ->
  Float64.below K c
    (binary_round_aux Float64.prec Float64.emax s M E loc_Exact).
Proof.
  intros HM HK Hc HE Hle. unfold binary_round_aux.
  destruct (shr_fexp_exact M E ltac:(lia)) as (n & Hn & He' & Hmax & Hinv).
  destruct (shr_fexp Float64.prec Float64.emax M E loc_Exact) as [mrs' e'].
  cbn [fst snd] in He', Hinv. subst e'.
  pose proof (fexp_le M E K c ltac:(lia) HK (proj1 Hc) HE Hle) as Hf.
  assert (He1 : E + n <= c) by lia.
  destruct (round_nearest_even_inv M n mrs' Hinv) as [Hex Hrn].
  set (m2 := round_nearest_even (shr_m mrs') (loc_of_shr_record mrs')) in *.
  assert (Hpn : 0 < 2 ^ n) by pow_pos.
  assert (Hdiv : 0 <= M / 2 ^ n) by (apply Z.div_pos; lia).
  assert (Hsplit : K * 2 ^ (c - E) = K * 2 ^ (c - (E + n)) * 2 ^ n).
  { rewrite <- Z.mul_assoc, <- Z.pow_add_r by lia. do 2 f_equal. lia. }
  assert (Hm2 : 0 <= m2 <= K * 2 ^ (c - (E + n))).
  { split; [lia |].
    destruct (Z.eq_dec (M mod 2 ^ n) 0) as [H0 | H0].
    - rewrite (Hex H0). apply Z.div_le_upper_bound; [lia |].
      rewrite Z.mul_comm, <- Hsplit. exact Hle.
    - assert (M <> K * 2 ^ (c - (E + n)) * 2 ^ n).
      { intros Heq. apply H0. rewrite Heq. apply Z.mod_mul. lia. }
      assert (M / 2 ^ n < K * 2 ^ (c - (E + n))).
      { apply Z.div_lt_upper_bound; [lia |]. rewrite Z.mul_comm. lia. }
      lia. }
  destruct (shr_fexp_exact m2 (E + n) ltac:(lia))
    as (n2 & Hn2 & He'' & Hmax2 & Hinv2).
  destruct (shr_fexp Float64.prec Float64.emax m2 (E + n) loc_Exact)
    as [mrs'' e''].
  cbn [fst snd] in He'', Hinv2. subst e''.
  pose proof (fexp_le m2 (E + n) K c ltac:(lia) HK (proj1 Hc) He1
                (proj2 Hm2)) as Hf2.
  assert (He2 : E + n + n2 <= c) by lia.
  destruct Hinv2 as [Hm3 _].
  assert (Hpn2 : 0 < 2 ^ n2) by pow_pos.
  assert (Hdiv2 : 0 <= m2 / 2 ^ n2) by (apply Z.div_pos; lia).
  destruct (shr_m mrs'') as [| m3 | m3] eqn:E3; [exact I | | lia].
  destruct (E + n + n2 <=? Float64.emax - Float64.prec) eqn:Efin; [| lia].
  cbn. split; [exact He2 |].
  rewrite Hm3. apply Z.div_le_upper_bound; [lia |].
  rewrite Z.mul_comm, <- Z.mul_assoc, <- Z.pow_add_r by lia.
  replace (c - (E + n + n2) + n2) with (c - (E + n)) by lia.
  apply Hm2.
Qed.

Lemma iter_xO (m d : positive) :
  Z.pos (Pos.iter xO m d) = Z.pos m * 2 ^ Z.pos d.
Proof.
  induction d as [| d IH] using Pos.peano_ind.
  - cbn. lia.
  - rewrite Pos.iter_succ, Pos2Z.inj_xO, IH, Pos2Z.inj_succ,
      Z.pow_succ_r by lia. ring.
Qed.

Lemma shl_align_spec (mx : positive) (ex ex' : Z) :
  snd (shl_align mx ex ex') <= ex /\
  Z.pos (fst (shl_align mx ex ex')) =
    Z.pos mx * 2 ^ (ex - snd (shl_align mx ex ex')).
Proof.
  unfold shl_align. destruct (ex' - ex) as [| d | d] eqn:Ed; cbn [fst snd].
  - rewrite Z.sub_diag. lia.
  - rewrite Z.sub_diag. lia.
  - split; [lia |]. rewrite iter_xO. do 2 f_equal. lia.
Qed.

Lemma of_int64_below (z : Z) :
  - 2 ^ 63 <= z <= 2 ^ 63 -> Float64.below (2 ^ 52) 11 (Float64.of_int64 z).
Proof.
  intros Hz. unfold Float64.of_int64, binary_normalize.
  assert (H : forall s m, Z.pos m <= 2 ^ 63 ->
            Float64.below (2 ^ 52) 11
              (binary_round Float64.prec Float64.emax s m 0)).
  { intros s m Hm. unfold binary_round.
    set (e0 := fexp Float64.prec Float64.emax (Z.pos (digits2_pos m) + 0)).
    destruct (shl_align_spec m 0 e0) as [He Hmz].
    destruct (shl_align m 0 e0) as [mz ez]. cbn [fst snd] in He, Hmz.
    apply binary_round_aux_below;
      try (unfold Float64.prec, Float64.emax, emin; lia).
    rewrite Hmz. replace (11 - ez) with (11 + (0 - ez)) by lia.
    rewrite Z.pow_add_r by lia.
    assert (0 < 2 ^ (0 - ez)) by pow_pos.
    replace (2 ^ 52 * (2 ^ 11 * 2 ^ (0 - ez))) with (2 ^ 63 * 2 ^ (0 - ez))
      by (change (2 ^ 63) with (2 ^ 52 * 2 ^ 11); ring).
    apply Z.mul_le_mono_nonneg_r; lia. }
  destruct z as [| m | m]; [exact I | |]; apply H; lia.
Qed.

Lemma digits2_gt (m : positive) : Z.pos m < 2 ^ Z.pos (digits2_pos m).
Proof.
  rewrite digits2_size. change 2 with (Z.pos 2).
  rewrite <- Pos2Z.inj_pow. apply Pos2Z.pos_lt_pos, Pos.size_gt.
Qed.

Lemma unit_interval_inv (r : float64) :
  Float64.in_unit_interval r = true ->
  exists m e,
    r = S754_finite false m e /\ e <= - 52 /\
    Z.pos m * 2 ^ 53 <= (2 ^ 53 - 1) * 2 ^ (- e).
Proof.
  unfold Float64.in_unit_interval. rewrite !andb_true_iff. intros [[Hv H0] H1].
  destruct r as [s | s | | s m e]; try (destruct s; discriminate);
    try discriminate.
  destruct s; [discriminate |].
  exists m, e. split; [reflexivity |].
  unfold Float64.valid, valid_binary, bounded, canonical_mantissa in Hv.
  apply andb_prop in Hv. destruct Hv as [Hc _]. apply Z.eqb_eq in Hc.
  assert (Hd : Z.pos (digits2_pos m) <= 53)
    by (unfold fexp, Float64.prec in Hc; lia).
  pose proof (digits2_gt m) as Hg.
  assert (Hm : Z.pos m < 2 ^ 53).
  { eapply Z.lt_le_trans; [exact Hg |]. apply Z.pow_le_mono_r; lia. }
  unfold SFltb, SFcompare, Float64.one in H1.
  destruct (e ?= - 52) eqn:Ec; try discriminate.
  - apply Z.compare_eq in Ec. subst e. split; [lia |].
    destruct (Pos.compare_cont Eq m 4503599627370496) eqn:Em; try discriminate.
    pose proof (proj1 (Pos.compare_lt_iff m 4503599627370496)) as L.
    unfold Pos.compare in L. apply L in Em.
    assert (Z.pos m < 4503599627370496)
      by (apply Pos2Z.pos_lt_pos in Em; exact Em).
    change (- - 52) with 52. clear - H. lia.
  - rewrite Z.compare_lt_iff in Ec. split; [lia |].
    assert (2 ^ 53 <= 2 ^ (- e)) by (apply Z.pow_le_mono_r; lia).
    set (P := 2 ^ (- e)) in *.
    assert (Z.pos m * 2 ^ 53 <= (2 ^ 53 - 1) * 2 ^ 53) by (clear - Hm; lia).
    assert ((2 ^ 53 - 1) * 2 ^ 53 <= (2 ^ 53 - 1) * P)
      by (apply Z.mul_le_mono_nonneg_l; lia).
    lia.
Qed.

Lemma mul_below (x r : float64) :
  Float64.below (2 ^ 52) 11 x -> Float64.in_unit_interval r = true ->
  Float64.below (2 ^ 53 - 1) 10 (Float64.mul x r).
Proof.
  intros Hx Hr. destruct (unit_interval_inv r Hr) as (mr & er & -> & He & Hm).
  destruct x as [s | s | | s mx ex]; try contradiction; [exact I |].
  destruct Hx as [Hex Hmx]. unfold Float64.mul, SFmul.
  apply binary_round_aux_below;
    try (unfold Float64.prec, Float64.emax, emin; lia).
  rewrite Pos2Z.inj_mul.
  assert (P1 : 0 < 2 ^ (11 - ex)) by pow_pos.
  assert (P2 : 0 < 2 ^ (- er)) by pow_pos.
  assert (E1 : 2 ^ (10 - (ex + er)) * 2 ^ 53
               = 2 ^ 52 * 2 ^ (11 - ex) * 2 ^ (- er)).
  { rewrite <- !Z.pow_add_r by lia. f_equal. lia. }
  assert (P3 : 0 < 2 ^ (10 - (ex + er))) by pow_pos.
  apply (Z.mul_le_mono_pos_r _ _ (2 ^ 53)); [lia |].
  replace ((2 ^ 53 - 1) * 2 ^ (10 - (ex + er)) * 2 ^ 53)
    with ((2 ^ 52 * 2 ^ (11 - ex)) * ((2 ^ 53 - 1) * 2 ^ (- er)))
    by (rewrite <- (Z.mul_assoc (2 ^ 53 - 1)), E1; ring).
  replace (Z.pos mx * Z.pos mr * 2 ^ 53)
    with (Z.pos mx * (Z.pos mr * 2 ^ 53)) by ring.
  apply Z.mul_le_mono_nonneg; lia.
Qed.

Lemma below_floor (f : float64) :
  Float64.below (2 ^ 53 - 1) 10 f ->
  exists q, Float64.floor f = Some q /\ - 2 ^ 63 <= q <= 2 ^ 63 - 1.
Proof.
  destruct f as [s | s | | s m e]; try contradiction.
  - intros _. exists 0. split; [reflexivity | lia].
  - intros [He Hm]. unfold Float64.floor. eexists; split; [reflexivity |].
    assert (Hb : forall a, 0 <= a <= (2 ^ 53 - 1) * 2 ^ 10 ->
                 - 2 ^ 63 <= - a - 1 /\ a <= 2 ^ 63 - 1) by (intros; lia).
    destruct (0 <=? e) eqn:Ee.
    + assert (Hp : 0 < 2 ^ e) by pow_pos.
      assert (Ha : 0 <= Z.pos m * 2 ^ e <= (2 ^ 53 - 1) * 2 ^ 10).
      { split; [lia |].
        replace 10 with ((10 - e) + e) at 1 by lia.
        rewrite Z.pow_add_r, Z.mul_assoc by lia.
        apply Z.mul_le_mono_nonneg_r; lia. }
      destruct (Hb _ Ha).
      destruct s; [change (Z.neg m) with (- Z.pos m) |]; lia.
    + assert (Hp : 0 < 2 ^ (- e)) by pow_pos.
      assert (Ha : 0 <= Z.pos m / 2 ^ (- e) <= (2 ^ 53 - 1) * 2 ^ 10).
      { split; [apply Z.div_pos; lia |].
        apply Z.div_le_upper_bound; [lia |].
        replace (10 - e) with (- e + 10) in Hm by lia.
        rewrite Z.pow_add_r in Hm by lia. lia. }
      destruct (Hb _ Ha). destruct s; [| lia].
      change (Z.neg m) with (- Z.pos m).
      pose proof (Z.div_mod (Z.pos m) (2 ^ (- e)) ltac:(lia)) as E1.
      pose proof (Z.mod_pos_bound (Z.pos m) (2 ^ (- e)) Hp) as B1.
      pose proof (Z.div_mod (- Z.pos m) (2 ^ (- e)) ltac:(lia)) as E2.
      pose proof (Z.mod_pos_bound (- Z.pos m) (2 ^ (- e)) Hp) as B2.
      nia.
Qed.

(** ** The rounded product against the exact one

    A value that fits the 53 bits of a binary64 mantissa is not rounded at
    all; a product below [2^53] is rounded to a neighbour at a spacing of
    at most 1, so its integer part is the floor of the exact product or
    one more. *)

Lemma shl_align_exp (mx : positive) (ex ex' : Z) :
  snd (shl_align mx ex ex') = Z.min ex ex'.
Proof.
  unfold shl_align. destruct (ex' - ex) as [| d | d] eqn:Ed; cbn [snd]; lia.
Qed.

Lemma binary_round_aux_exact (s : bool) (m : positive) (E : Z) :
  Z.pos m < 2 ^ Float64.prec ->
  emin Float64.prec Float64.emax <= E <= Float64.emax - Float64.prec ->
  binary_round_aux Float64.prec Float64.emax s (Z.pos m) E loc_Exact
  = S754_finite s m E.
Proof.
  intros Hm HE. unfold binary_round_aux.
  assert (Hf : fexp Float64.prec Float64.emax (Zdigits2 (Z.pos m) + E) <= E).
  { apply (fexp_le (Z.pos m) E (2 ^ Float64.prec - 1) E);
      [lia | unfold Float64.prec; lia | lia | lia |].
    rewrite Z.sub_diag. change (2 ^ 0) with 1. lia. }
  destruct (shr_fexp_exact (Z.pos m) E ltac:(lia))
    as (n & Hn & He' & Hmax & Hinv).
  destruct (shr_fexp Float64.prec Float64.emax (Z.pos m) E loc_Exact)
    as [mrs' e'].
  cbn [fst snd] in He', Hinv. subst e'.
  assert (n = 0) by lia. subst n.
  destruct (round_nearest_even_inv (Z.pos m) 0 mrs' Hinv) as [Hex _].
  change (2 ^ 0) with 1 in Hex. rewrite Z.mod_1_r, Z.div_1_r in Hex.
  rewrite (Hex eq_refl). rewrite Z.add_0_r.
  destruct (shr_fexp_exact (Z.pos m) E ltac:(lia))
    as (n2 & Hn2 & He'' & Hmax2 & Hinv2).
  destruct (shr_fexp Float64.prec Float64.emax (Z.pos m) E loc_Exact)
    as [mrs'' e''].
  cbn [fst snd] in He'', Hinv2. subst e''.
  assert (n2 = 0) by lia. subst n2.
  destruct Hinv2 as [Hm3 _]. rewrite Z.div_1_r in Hm3. rewrite Hm3.
  rewrite Z.add_0_r.
  destruct (E <=? Float64.emax - Float64.prec) eqn:Efin; [reflexivity | lia].
Qed.

(** [float64(z)] is [z] itself for a positive [z] below [2^53]. *)
Lemma of_int64_exact (z : Z) :
  0 < z < 2 ^ 53 ->
  exists m e,
    Float64.of_int64 z = S754_finite false m e /\
    e <= 0 /\ Z.pos m = z * 2 ^ (- e).
Proof.
  intros Hz. destruct z as [| p | p]; try lia.
  unfold Float64.of_int64, binary_normalize, binary_round.
  set (e0 := fexp Float64.prec Float64.emax (Z.pos (digits2_pos p) + 0)).
  assert (Hd : Z.pos (digits2_pos p) <= 53).
  { apply (Zdigits2_le (Z.pos p) 53); lia. }
  pose proof (digits2_gt p) as Hg.
  assert (He0 : Z.pos (digits2_pos p) - 53 <= e0 /\ - 1074 <= e0 <= 0).
  { unfold e0, fexp, emin, Float64.prec, Float64.emax. lia. }
  destruct (shl_align_spec p 0 e0) as [He Hmz].
  pose proof (shl_align_exp p 0 e0) as Hez.
  destruct (shl_align p 0 e0) as [mz ez]. cbn [fst snd] in He, Hmz, Hez.
  assert (Hee : ez = e0) by lia. clear Hez. subst ez.
  assert (Hlt : Z.pos mz < 2 ^ 53).
  { rewrite Hmz.
    assert (Hp : 2 ^ (0 - e0) <= 2 ^ (53 - Z.pos (digits2_pos p)))
      by (apply Z.pow_le_mono_r; lia).
    assert (Hq : 2 ^ Z.pos (digits2_pos p)
                 * 2 ^ (53 - Z.pos (digits2_pos p)) = 2 ^ 53).
    { rewrite <- Z.pow_add_r by lia. f_equal. lia. }
    apply Z.le_lt_trans
      with (Z.pos p * 2 ^ (53 - Z.pos (digits2_pos p)));
      [apply Z.mul_le_mono_nonneg_l; lia |].
    rewrite <- Hq. apply Z.mul_lt_mono_pos_r; [pow_pos | exact Hg]. }
  rewrite binary_round_aux_exact;
    [| exact Hlt | unfold emin, Float64.prec, Float64.emax; lia].
  exists mz, e0. split; [reflexivity |]. split; [lia |].
  rewrite Hmz. reflexivity.
Qed.

(** Rounding a value [M * 2^E] of at most [2^53 - 1]: the floor of the
    result is the floor of the value, or one more. *)
Lemma binary_round_aux_floor (M E : Z) :
  0 < M -> E <= 0 -> M <= (2 ^ 53 - 1) * 2 ^ (- E) ->
  exists q,
    Float64.floor
      (binary_round_aux Float64.prec Float64.emax false M E loc_Exact)
    = Some q /\
    M / 2 ^ (- E) <= q <= M / 2 ^ (- E) + 1.
Proof.
  intros HM HE Hle.
  assert (HK : 0 < 2 ^ 53 - 1 < 2 ^ Float64.prec)
    by (unfold Float64.prec; lia).
  assert (Hc : emin Float64.prec Float64.emax <= 0)
    by (unfold emin, Float64.prec, Float64.emax; lia).
  unfold binary_round_aux.
  destruct (shr_fexp_exact M E ltac:(lia)) as (n & Hn & He' & Hmax & Hinv).
  destruct (shr_fexp Float64.prec Float64.emax M E loc_Exact) as [mrs' e'].
  cbn [fst snd] in He', Hinv. subst e'.
  pose proof (fexp_le M E (2 ^ 53 - 1) 0 ltac:(lia) HK Hc HE
                ltac:(replace (0 - E) with (- E) by lia; exact Hle)) as Hf.
  assert (He1 : E + n <= 0) by lia.
  destruct (round_nearest_even_inv M n mrs' Hinv) as [Hex Hrn].
  set (m2 := round_nearest_even (shr_m mrs') (loc_of_shr_record mrs')) in *.
  assert (Hpn : 0 < 2 ^ n) by pow_pos.
  assert (Hdiv : 0 <= M / 2 ^ n) by (apply Z.div_pos; lia).
  set (j := - (E + n)).
  assert (Hj : 0 <= j) by (unfold j; lia).
  assert (Hpj : 0 < 2 ^ j) by pow_pos.
  assert (Hsplit : 2 ^ (- E) = 2 ^ n * 2 ^ j).
  { rewrite <- Z.pow_add_r by lia. f_equal. unfold j. lia. }
  assert (Hm2 : 0 <= m2 <= (2 ^ 53 - 1) * 2 ^ j).
  { split; [lia |].
    destruct (Z.eq_dec (M mod 2 ^ n) 0) as [H0 | H0].
    - rewrite (Hex H0). apply Z.div_le_upper_bound; [lia |].
      rewrite Hsplit in Hle. lia.
    - assert (M <> (2 ^ 53 - 1) * 2 ^ j * 2 ^ n).
      { intros Heq. apply H0. rewrite Heq. apply Z.mod_mul. lia. }
      assert (M / 2 ^ n < (2 ^ 53 - 1) * 2 ^ j).
      { apply Z.div_lt_upper_bound; [lia |]. rewrite Hsplit in Hle. lia. }
      lia. }
  destruct (shr_fexp_exact m2 (E + n) ltac:(lia))
    as (n2 & Hn2 & He'' & Hmax2 & Hinv2).
  destruct (shr_fexp Float64.prec Float64.emax m2 (E + n) loc_Exact)
    as [mrs'' e''].
  cbn [fst snd] in He'', Hinv2. subst e''.
  pose proof (fexp_le m2 (E + n) (2 ^ 53 - 1) 0 ltac:(lia) HK Hc He1
                ltac:(replace (0 - (E + n)) with j by (unfold j; lia);
                      apply Hm2)) as Hf2.
  assert (He2 : E + n + n2 <= 0) by lia.
  destruct Hinv2 as [Hm3 _].
  assert (Hpn2 : 0 < 2 ^ n2) by pow_pos.
  assert (Hdiv2 : 0 <= m2 / 2 ^ n2) by (apply Z.div_pos; lia).
  (* the floor of the result is [m2 / 2 ^ j] *)
  assert (Hq : m2 / 2 ^ n2 / 2 ^ (- (E + n + n2)) = m2 / 2 ^ j).
  { rewrite Z.div_div by lia. rewrite <- Z.pow_add_r by lia.
    do 2 f_equal. unfold j. lia. }
  assert (HQ : M / 2 ^ (- E) = M / 2 ^ n / 2 ^ j).
  { rewrite Hsplit, Z.div_div by lia. reflexivity. }
  assert (Hlo : M / 2 ^ n / 2 ^ j <= m2 / 2 ^ j)
    by (apply Z.div_le_mono; lia).
  assert (Hhi : m2 / 2 ^ j <= M / 2 ^ n / 2 ^ j + 1).
  { rewrite <- (Z.div_add _ 1 (2 ^ j)) by lia.
    apply Z.div_le_mono; lia. }
  exists (m2 / 2 ^ j). split; [| lia].
  destruct (shr_m mrs'') as [| m3 | m3] eqn:E3; [| | lia].
  - cbn [Float64.floor]. rewrite <- Hq, <- Hm3. reflexivity.
  - destruct (E + n + n2 <=? Float64.emax - Float64.prec) eqn:Efin;
      [| unfold Float64.emax, Float64.prec in Efin; lia].
    unfold Float64.floor. rewrite <- Hq, <- Hm3. f_equal.
    destruct (0 <=? E + n + n2) eqn:E0; [| reflexivity].
    assert (E + n + n2 = 0) by lia.
    replace (E + n + n2) with 0 by lia.
    change (2 ^ (- 0)) with 1. change (2 ^ 0) with 1.
    rewrite Z.div_1_r. lia.
Qed.

(** The product the code computes against the exact one, for a limit that
    binary64 holds exactly and a ratio in (0,1). *)
Lemma mul_exact_floor (z : Z) (r : float64) :
  0 < z < 2 ^ 53 -> Float64.in_unit_interval r = true ->
  exists q q',
    exact_floor z r = Some q /\
    Float64.floor (Float64.mul (Float64.of_int64 z) r) = Some q' /\
    0 <= q /\ (q' = q \/ q' = q + 1).
Proof.
  intros Hz Hr.
  destruct (unit_interval_inv r Hr) as (mr & er & -> & He & Hm).
  destruct (of_int64_exact z Hz) as (mx & ex & -> & Hex & Hmx).
  unfold Float64.mul, SFmul. cbn [xorb].
  assert (PA : 0 < 2 ^ (- ex)) by pow_pos.
  assert (PB : 0 < 2 ^ (- er)) by pow_pos.
  assert (HT : 2 ^ (- (ex + er)) = 2 ^ (- ex) * 2 ^ (- er)).
  { rewrite <- Z.pow_add_r by lia. f_equal. lia. }
  assert (Hmr : Z.pos mr <= 2 ^ (- er)) by (clear - Hm PB; lia).
  destruct (binary_round_aux_floor (Z.pos (mx * mr)) (ex + er))
    as (q' & Hq' & Hb); [lia | lia | |].
  { rewrite Pos2Z.inj_mul, Hmx, HT.
    replace (z * 2 ^ (- ex) * Z.pos mr)
      with ((z * Z.pos mr) * 2 ^ (- ex)) by ring.
    replace ((2 ^ 53 - 1) * (2 ^ (- ex) * 2 ^ (- er)))
      with (((2 ^ 53 - 1) * 2 ^ (- er)) * 2 ^ (- ex)) by ring.
    apply Z.mul_le_mono_nonneg_r; [lia |].
    apply Z.mul_le_mono_nonneg; lia. }
  assert (HQ : Z.pos (mx * mr) / 2 ^ (- (ex + er))
               = z * Z.pos mr / 2 ^ (- er)).
  { rewrite Pos2Z.inj_mul, Hmx, HT.
    replace (z * 2 ^ (- ex) * Z.pos mr)
      with (2 ^ (- ex) * (z * Z.pos mr)) by ring.
    apply Z.div_mul_cancel_l; lia. }
  rewrite HQ in Hb.
  exists (z * Z.pos mr / 2 ^ (- er)), q'.
  split; [| split; [exact Hq' | split; [| lia]]].
  - unfold exact_floor. cbv zeta.
    destruct (0 <=? er) eqn:E0; [lia | reflexivity].
  - apply Z.div_pos; lia.
Qed.

(** ** [start] *)

Lemma start_rejects (l : limiter) :
  inflight l > limit l -> start l = (l, (None, false)).
Proof.
  intros H. unfold start.
  destruct (inflight l >? limit l) eqn:E; [reflexivity | lia].
Qed.

Lemma start_admits (l : limiter) :
  inflight l <= limit l ->
  start l =
    (set_inflight l (Int64.incr (inflight l)),
     (Some (mkTransaction (Int64.incr (inflight l)) (limit l)), true)).
Proof.
  intros H. unfold start.
  destruct (inflight l >? limit l) eqn:E; [lia | reflexivity].
Qed.

Lemma start_limit (l : limiter) : limit (fst (start l)) = limit l.
Proof. unfold start. destruct (inflight l >? limit l); reflexivity. Qed.

Lemma start_backoffRatio (l : limiter) :
  backoffRatio (fst (start l)) = backoffRatio l.
Proof. unfold start. destruct (inflight l >? limit l); reflexivity. Qed.

Lemma start_wf (l : limiter) : wf l -> wf (fst (start l)).
Proof.
  intros [Hi Hl]. unfold start.
  destruct (inflight l >? limit l); cbn; split; auto.
  apply wrap_in_range.
Qed.

(** C1: [start] compares [inflight] with [limit] before it increments.
    When [inflight > limit] it returns no transaction and [false] and leaves
    the limiter as it was.  Otherwise it returns [true], the limiter with
    [inflight] incremented (the [int64] increment, which is [inflight + 1]
    below the largest [int64]) and nothing else changed, and a transaction
    that carries the incremented [inflight] and the current [limit]. *)
Theorem start_spec (l : limiter) :
  (inflight l > limit l -> start l = (l, (None, false))) /\
  (inflight l <= limit l ->
   exists l' t,
     start l = (l', (Some t, true)) /\
     inflight l' = Int64.incr (inflight l) /\
     (Int64.in_range (inflight l) -> inflight l < Int64.max_int64 ->
      inflight l' = inflight l + 1) /\
     limit l' = limit l /\
     backoffRatio l' = backoffRatio l /\
     tx_inflight t = inflight l' /\
     tx_limit t = limit l).
Proof.
  split.
  - apply start_rejects.
  - intros H. rewrite (start_admits l H).
    eexists; eexists; split; [reflexivity |].
    cbn. repeat split; auto using incr_below_max.
Qed.

Lemma start_spec_witness :
  start (mkLimiter ratio_half 6 4)
  = (mkLimiter ratio_half 6 4, (None, false)) /\
  exists l' t,
    start (mkLimiter ratio_half 4 4) = (l', (Some t, true)) /\
    inflight l' = Int64.incr 4 /\
    (Int64.in_range 4 -> 4 < Int64.max_int64 -> inflight l' = 5) /\
    limit l' = 4 /\
    backoffRatio l' = ratio_half /\
    tx_inflight t = inflight l' /\
    tx_limit t = 4.
Proof.
  split.
  - apply (proj1 (start_spec (mkLimiter ratio_half 6 4))). cbn. lia.
  - apply (proj2 (start_spec (mkLimiter ratio_half 4 4))). cbn. lia.
Defined.

(** C8: a rejecting [start] ([inflight > limit]) leaves [inflight] and
    [limit] exactly as they were; no [start] changes [limit], and a [start]
    that changes [inflight] is an admitting one. *)
Theorem start_frame (l : limiter) :
  (inflight l > limit l ->
   fst (start l) = l /\ snd (snd (start l)) = false) /\
  limit (fst (start l)) = limit l /\
  (inflight (fst (start l)) <> inflight l -> snd (snd (start l)) = true).
Proof.
  split; [| split].
  - intros H. rewrite (start_rejects l H). split; reflexivity.
  - apply start_limit.
  - unfold start.
    destruct (inflight l >? limit l); cbn; [congruence | reflexivity].
Qed.

Lemma start_frame_witness :
  (fst (start (mkLimiter ratio_half 6 4)) = mkLimiter ratio_half 6 4 /\
   snd (snd (start (mkLimiter ratio_half 6 4))) = false) /\
  snd (snd (start (mkLimiter ratio_half 4 4))) = true.
Proof.
  split.
  - apply (proj1 (start_frame (mkLimiter ratio_half 6 4))). cbn. lia.
  - apply (proj2 (proj2 (start_frame (mkLimiter ratio_half 4 4)))).
    vm_compute. discriminate.
Defined.

(** ** [finish] *)

Section FinishFacts.

Variable unrepresentable : float64 -> Z.

Lemma to_int64_in_range (f : float64) :
  Int64.in_range (Float64.to_int64 unrepresentable f).
Proof.
  unfold Float64.to_int64.
  destruct (Float64.trunc f) as [z |]; [| apply wrap_in_range].
  destruct ((Int64.min_int64 <=? z) && (z <=? Int64.max_int64)) eqn:E;
    [| apply wrap_in_range].
  apply andb_prop in E. unfold Int64.in_range. lia.
Qed.

Lemma finish_other (tx : option transaction) (err : status.error)
    (l : limiter) :
  overload (status.Code err) = false ->
  finish unrepresentable tx err l =
    Some (if inflight l >? Int64.div (limit l) 2
          then set_limit l (Int64.incr (limit l)) else l).
Proof.
  intros H. unfold finish. rewrite H.
  destruct (inflight l >? Int64.div (limit l) 2); reflexivity.
Qed.

Lemma finish_overload (t : transaction) (err : status.error)
    (l : limiter) :
  overload (status.Code err) = true ->
  finish unrepresentable (Some t) err l =
    Some (if limit l >=? tx_limit t
          then set_limit l (Z.max 1 (backoff unrepresentable l)) else l).
Proof.
  intros H. unfold finish. rewrite H.
  destruct (limit l >=? tx_limit t); [| reflexivity].
  destruct (backoff unrepresentable l <? 1) eqn:E; do 2 f_equal; lia.
Qed.

Lemma finish_returns (t : transaction) (err : status.error) (l : limiter) :
  exists l', finish unrepresentable (Some t) err l = Some l'.
Proof.
  destruct (overload (status.Code err)) eqn:E.
  - rewrite (finish_overload t err l E). eauto.
  - rewrite (finish_other (Some t) err l E). eauto.
Qed.

(** A nil transaction is dereferenced on the multiplicative-decrease arm
    only: that is the one way [finish] can panic. *)
Lemma finish_nil_transaction (err : status.error) (l : limiter) :
  finish unrepresentable None err l = None <->
  overload (status.Code err) = true.
Proof.
  unfold finish. destruct (overload (status.Code err)).
  - tauto.
  - destruct (inflight l >? Int64.div (limit l) 2); split; discriminate.
Qed.

Lemma finish_inflight (tx : option transaction) (err : status.error)
    (l l' : limiter) :
  finish unrepresentable tx err l = Some l' -> inflight l' = inflight l.
Proof.
  unfold finish.
  destruct (overload (status.Code err)).
  - destruct tx as [t |]; [| discriminate].
    destruct (limit l >=? tx_limit t); intros [= <-]; reflexivity.
  - destruct (inflight l >? Int64.div (limit l) 2); intros [= <-];
      reflexivity.
Qed.

Lemma finish_backoffRatio (tx : option transaction) (err : status.error)
    (l l' : limiter) :
  finish unrepresentable tx err l = Some l' -> backoffRatio l' = backoffRatio l.
Proof.
  unfold finish.
  destruct (overload (status.Code err)).
  - destruct tx as [t |]; [| discriminate].
    destruct (limit l >=? tx_limit t); intros [= <-]; reflexivity.
  - destruct (inflight l >? Int64.div (limit l) 2); intros [= <-];
      reflexivity.
Qed.

Lemma finish_wf (tx : option transaction) (err : status.error)
    (l l' : limiter) :
  wf l -> finish unrepresentable tx err l = Some l' -> wf l'.
Proof.
  intros [Hi Hl]. unfold finish.
  destruct (overload (status.Code err)).
  - destruct tx as [t |]; [| discriminate].
    destruct (limit l >=? tx_limit t); intros [= <-]; [| split; assumption].
    split; [assumption |]. cbn.
    pose proof (to_int64_in_range
      (Float64.mul (Float64.of_int64 (limit l)) (backoffRatio l))) as R.
    fold (backoff unrepresentable l) in R.
    destruct (backoff unrepresentable l <? 1); [| exact R].
    unfold Int64.in_range, Int64.min_int64, Int64.max_int64. lia.
  - destruct (inflight l >? Int64.div (limit l) 2); intros [= <-];
      [| split; assumption].
    split; [assumption | apply wrap_in_range].
Qed.

Lemma step_wf (c : call) (l l' : limiter) :
  wf l -> step unrepresentable c l = Some l' -> wf l'.
Proof.
  destruct c as [| tx err]; cbn.
  - intros H [= <-]. now apply start_wf.
  - apply finish_wf.
Qed.

End FinishFacts.

(** ** Calls of [start] in a row *)

Lemma starts_succ (n : N) (l : limiter) :
  starts (N.succ n) l = fst (start (starts n l)).
Proof. unfold starts. now rewrite N.iter_succ. Qed.

Lemma starts_limit (n : N) (l : limiter) : limit (starts n l) = limit l.
Proof.
  induction n as [| n IH] using N.peano_ind; [reflexivity |].
  rewrite starts_succ, start_limit. exact IH.
Qed.

(** As long as the limit admits them and [inflight] stays an [int64], [n]
    calls add [n] to [inflight]. *)
Lemma starts_admitted (n : N) (l : limiter) :
  Int64.in_range (inflight l) ->
  inflight l + Z.of_N n <= limit l + 1 ->
  inflight l + Z.of_N n <= Int64.max_int64 ->
  starts n l = set_inflight l (inflight l + Z.of_N n).
Proof.
  intros Hr. induction n as [| n IH] using N.peano_ind; intros Hl Hm.
  - destruct l. unfold set_inflight. cbn. f_equal. lia.
  - rewrite starts_succ, IH by lia.
    rewrite start_admits by (cbn; lia). cbn.
    unfold set_inflight. cbn. f_equal.
    rewrite incr_below_max; unfold Int64.in_range in *; lia.
Qed.

(** Once [inflight] is above the limit, further calls change nothing. *)
Lemma starts_rejected (n : N) (l : limiter) :
  inflight l > limit l -> starts n l = l.
Proof.
  intros H. induction n as [| n IH] using N.peano_ind; [reflexivity |].
  rewrite starts_succ, IH. now rewrite start_rejects.
Qed.

Lemma starts_add (n m : N) (l : limiter) :
  starts (n + m) l = starts n (starts m l).
Proof. unfold starts. apply N.iter_add. Qed.

Lemma reachable_while_weaken (u : float64 -> Z) (P Q : limiter -> Prop)
    (l0 l : limiter) :
  (forall s, P s -> Q s) ->
  reachable_while u P l0 l -> reachable_while u Q l0 l.
Proof.
  intros HPQ H. induction H as [| l l' c _ IH HP Hs].
  - constructor.
  - eapply reach_step; eauto.
Qed.

Lemma reachable_starts (u : float64 -> Z) (n : N) (l0 : limiter) :
  reachable u l0 (starts n l0).
Proof.
  induction n as [| n IH] using N.peano_ind.
  - apply reach_init.
  - rewrite starts_succ.
    apply (reach_step u _ l0 (starts n l0) _ Start IH I). reflexivity.
Qed.

Lemma reachable_wf (u : float64 -> Z) (P : limiter -> Prop)
    (l0 l : limiter) :
  wf l0 -> reachable_while u P l0 l -> wf l.
Proof.
  intros H0 H. induction H as [| l l' c _ IH _ Hs]; [assumption |].
  eapply step_wf; eauto.
Qed.

(** ** Classification of outcomes *)

Lemma overload_iff (c : codes.Code) :
  overload c = true <->
  c = codes.Canceled \/ c = codes.DeadlineExceeded \/ c = codes.Unavailable.
Proof.
  unfold overload. rewrite !orb_true_iff, !N.eqb_eq. tauto.
Qed.

(** C6: [finish] takes the multiplicative-decrease arm exactly for the codes
    [Canceled], [DeadlineExceeded] and [Unavailable]; every other outcome,
    among them success (a nil error, code [OK]) and an error without a gRPC
    status (code [Unknown]), takes the additive-increase arm whatever the
    transaction; and for every transaction and every error [finish] returns
    a limiter: it has no failure mode. *)
Theorem finish_classification (u : float64 -> Z) :
  (forall c, overload c = true <->
     c = codes.Canceled \/ c = codes.DeadlineExceeded \/
     c = codes.Unavailable) /\
  overload (status.Code status.nil) = false /\
  overload (status.Code status.opaque) = false /\
  (forall tx err l,
     overload (status.Code err) = false ->
     finish u tx err l =
       Some (if inflight l >? Int64.div (limit l) 2
             then set_limit l (Int64.incr (limit l)) else l)) /\
  (forall t err l,
     overload (status.Code err) = true ->
     finish u (Some t) err l =
       Some (if limit l >=? tx_limit t
             then set_limit l (Z.max 1 (backoff u l)) else l)) /\
  (forall t err l, exists l', finish u (Some t) err l = Some l').
Proof.
  split; [exact overload_iff |].
  split; [reflexivity |].
  split; [reflexivity |].
  split; [intros tx err l; apply finish_other |].
  split; [intros t err l; apply finish_overload |].
  intros t err l. apply finish_returns.
Qed.

Lemma finish_classification_witness :
  finish indefinite None (status.withStatus codes.Internal)
    (mkLimiter ratio_half 3 5) = Some (mkLimiter ratio_half 3 6) /\
  finish indefinite (Some (mkTransaction 1 4))
    (status.withStatus codes.DeadlineExceeded) (mkLimiter ratio_half 3 4)
  = Some (mkLimiter ratio_half 3 2).
Proof.
  destruct (finish_classification indefinite) as (_ & _ & _ & Ho & Hd & _).
  split.
  - rewrite (Ho None (status.withStatus codes.Internal)
               (mkLimiter ratio_half 3 5)); reflexivity.
  - rewrite (Hd (mkTransaction 1 4)
               (status.withStatus codes.DeadlineExceeded)
               (mkLimiter ratio_half 3 4)); reflexivity.
Defined.

(** ** Additive increase *)

(** C3, amended: unless the limit is the largest [int64] and the gate
    [inflight > limit / 2] is open, a [finish] whose outcome is not an
    overload signal returns the limiter with [limit] increased by exactly 1
    if and only if [inflight > limit / 2], the quotient truncated as Go's
    [/] does; otherwise [limit] is unchanged.  [inflight] and [backoffRatio]
    are never touched, and for [limit = 5] the increase happens exactly from
    [inflight = 3] on. *)
Theorem finish_additive_increase (u : float64 -> Z)
    (tx : option transaction) (err : status.error) (l : limiter) :
  wf l ->
  overload (status.Code err) = false ->
  limit l < Int64.max_int64 \/ inflight l <= Z.quot (limit l) 2 ->
  exists l',
    finish u tx err l = Some l' /\
    (limit l' = limit l + 1 <-> inflight l > Z.quot (limit l) 2) /\
    (inflight l <= Z.quot (limit l) 2 -> limit l' = limit l) /\
    (limit l = 5 -> (limit l' = 6 <-> 3 <= inflight l)) /\
    inflight l' = inflight l /\
    backoffRatio l' = backoffRatio l.
Proof.
  intros [Hi Hl] Ho Hlt.
  rewrite (finish_other u tx err l Ho), (div_two _ Hl).
  assert (H52 : Z.quot 5 2 = 2) by reflexivity.
  destruct (inflight l >? Z.quot (limit l) 2) eqn:E; eexists;
    (split; [reflexivity |]); cbn.
  - apply Z.gtb_gt in E.
    rewrite (incr_below_max _ Hl ltac:(lia)).
    split; [split; [intros _; lia | reflexivity] |].
    split; [intros H; lia |].
    split; [| split; reflexivity].
    intros H5. rewrite H5 in E |- *. rewrite H52 in E. split; lia.
  - assert (E' : inflight l <= Z.quot (limit l) 2) by lia.
    split; [split; lia |].
    split; [reflexivity |].
    split; [| split; reflexivity].
    intros H5. rewrite H5 in E'. rewrite H52 in E'. split; lia.
Qed.

Lemma finish_additive_increase_witness :
  exists l',
    finish indefinite None status.nil (mkLimiter ratio_half 3 5) = Some l' /\
    (limit l' = 5 + 1 <-> 3 > Z.quot 5 2) /\
    (3 <= Z.quot 5 2 -> limit l' = 5) /\
    (5 = 5 -> (limit l' = 6 <-> 3 <= 3)) /\
    inflight l' = 3 /\
    backoffRatio l' = ratio_half.
Proof.
  apply (finish_additive_increase indefinite None status.nil
           (mkLimiter ratio_half 3 5)).
  - split; cbn; unfold Int64.in_range, Int64.min_int64, Int64.max_int64; lia.
  - reflexivity.
  - left. cbn. unfold Int64.max_int64. lia.
Defined.

(** C3 fails as stated at the largest [int64]: a limiter constructed with
    limit [2^63 - 1] reaches [inflight = 2^62], which exceeds half the limit,
    and the non-overload [finish] then wraps the limit to [-2^63] instead of
    increasing it by 1. *)
Lemma finish_additive_increase_wraps :
  let l := mkLimiter ratio_half (2 ^ 62) Int64.max_int64 in
  reachable indefinite (Limiter Int64.max_int64 ratio_half) l /\
  wf l /\
  overload (status.Code status.nil) = false /\
  inflight l > Z.quot (limit l) 2 /\
  exists l',
    finish indefinite (Some (mkTransaction 1 Int64.max_int64)) status.nil l
    = Some l' /\
    limit l' = Int64.min_int64 /\
    limit l' <> limit l + 1.
Proof.
  cbv zeta. split; [| split; [| split; [| split]]].
  - pose proof (reachable_starts indefinite (2 ^ 62)%N
                  (Limiter Int64.max_int64 ratio_half)) as R.
    rewrite starts_admitted in R; [exact R | | |]; cbn;
      unfold Int64.in_range, Int64.min_int64, Int64.max_int64; lia.
  - split; cbn; unfold Int64.in_range, Int64.min_int64, Int64.max_int64; lia.
  - reflexivity.
  - vm_compute. reflexivity.
  - eexists. split; [vm_compute; reflexivity |]. split.
    + reflexivity.
    + vm_compute. discriminate.
Qed.

(** C10: on the additive-increase arm [finish] never reads the transaction:
    with an outcome that is not an overload signal any two transactions,
    nil included, give the same result, which depends on the current
    [inflight] and [limit] only.  So a unit admitted at limit 4 whose limit
    was cut to 2 by another unit's overload settle still raises the limit,
    to 3, with its own successful settle. *)
Theorem finish_other_ignores_transaction (u : float64 -> Z) :
  (forall tx tx' err l,
     overload (status.Code err) = false ->
     finish u tx err l = finish u tx' err l) /\
  (forall tx err l1 l2,
     overload (status.Code err) = false ->
     inflight l1 = inflight l2 -> limit l1 = limit l2 ->
     option_map limit (finish u tx err l1) =
     option_map limit (finish u tx err l2)) /\
  exists lA tA lB tB lC lD,
    start (Limiter 4 ratio_half) = (lA, (Some tA, true)) /\
    start lA = (lB, (Some tB, true)) /\
    finish u (Some tB) (status.withStatus codes.Unavailable) lB = Some lC /\
    limit lC = 2 /\ tx_limit tA = 4 /\
    finish u (Some tA) status.nil lC = Some lD /\
    limit lD = 3.
Proof.
  split; [| split].
  - intros tx tx' err l H. now rewrite !(finish_other u _ err l H).
  - intros tx err l1 l2 H Hi Hl.
    rewrite (finish_other u tx err l1 H), (finish_other u tx err l2 H).
    rewrite Hi, Hl. destruct (inflight l2 >? Int64.div (limit l2) 2); cbn;
      congruence.
  - do 6 eexists.
    split; [reflexivity |]. split; [reflexivity |].
    split; [vm_compute; reflexivity |].
    split; [reflexivity |]. split; [reflexivity |].
    split; reflexivity.
Qed.

Lemma finish_other_ignores_transaction_witness :
  finish indefinite (Some (mkTransaction 1 4)) status.opaque
    (mkLimiter ratio_half 2 2)
  = finish indefinite None status.opaque (mkLimiter ratio_half 2 2) /\
  option_map limit
    (finish indefinite None status.nil (mkLimiter ratio_half 2 2)) =
  option_map limit
    (finish indefinite None status.nil (mkLimiter ratio_tenth 2 2)).
Proof.
  destruct (finish_other_ignores_transaction indefinite) as (H1 & H2 & _).
  split.
  - apply H1. reflexivity.
  - apply H2; reflexivity.
Defined.

(** ** Multiplicative decrease *)

(** The integer part of a float is its floor, or lies between a negative
    floor and zero. *)
Lemma trunc_floor (f : float64) (q : Z) :
  Float64.floor f = Some q ->
  exists z, Float64.trunc f = Some z /\ (z = q \/ q <= z <= 0).
Proof.
  destruct f as [s | s | | s m e]; try discriminate.
  - intros [= <-]. exists 0. auto.
  - unfold Float64.floor, Float64.trunc. intros [= <-].
    eexists; split; [reflexivity |].
    destruct s; [| now left].
    destruct (0 <=? e) eqn:Ee.
    + left. change (Z.neg m) with (- Z.pos m). lia.
    + right. change (Z.neg m) with (- Z.pos m).
      assert (Hd : 0 < 2 ^ (- e)) by pow_pos.
      pose proof (Z.div_pos (Z.pos m) (2 ^ (- e)) ltac:(lia) Hd) as Hp.
      pose proof (Z.div_mod (Z.pos m) (2 ^ (- e)) ltac:(lia)) as E1.
      pose proof (Z.mod_pos_bound (Z.pos m) (2 ^ (- e)) Hd) as B1.
      pose proof (Z.div_mod (- Z.pos m) (2 ^ (- e)) ltac:(lia)) as E2.
      pose proof (Z.mod_pos_bound (- Z.pos m) (2 ^ (- e)) Hd) as B2.
      split; [nia | lia].
Qed.

Lemma to_int64_floor (u : float64 -> Z) (f : float64) (q : Z) :
  Float64.floor f = Some q -> Int64.in_range q ->
  Z.max 1 (Float64.to_int64 u f) = Z.max 1 q.
Proof.
  intros Hq Hr. destruct (trunc_floor f q Hq) as (z & Hz & Hzq).
  unfold Float64.to_int64. rewrite Hz.
  unfold Int64.in_range, Int64.min_int64, Int64.max_int64 in *.
  replace ((- 2 ^ 63 <=? z) && (z <=? 2 ^ 63 - 1)) with true
    by (symmetry; apply andb_true_intro; split; lia).
  lia.
Qed.

(** For a backoff ratio in (0,1) and an [int64] limit the product is never
    NaN or an infinity and its floor is an [int64], whatever the rounding
    does. *)
Lemma backoff_product_floor (z : Z) (ratio : float64) :
  Int64.in_range z -> Float64.in_unit_interval ratio = true ->
  exists q,
    Float64.floor (Float64.mul (Float64.of_int64 z) ratio) = Some q /\
    Int64.in_range q.
Proof.
  intros Hz Hr. apply below_floor, mul_below; [| exact Hr].
  apply of_int64_below.
  unfold Int64.in_range, Int64.min_int64, Int64.max_int64 in Hz. lia.
Qed.

(** C2: let the outcome of [finish] be an overload signal.  If the current
    limit is at or above the limit recorded in the transaction, the new
    limit is [max 1 (floor p)], where [p] is the binary64 product the code
    computes, [float64(limit)] times [backoffRatio], both the conversion
    and the product rounded to the nearest binary64 value: this holds
    whenever that floor is an [int64], and it is one for every [int64]
    limit and every ratio in (0,1).  Against the product taken exactly:
    for a limit from 1 to below [2^53] and a ratio in (0,1) the new limit
    is [max 1 q] or [max 1 (q + 1)], where [q] is
    [floor (limit * backoffRatio)] without rounding.  If the current limit
    is below the recorded one, the limiter is unchanged.  With limit 1 and
    ratio 0.1 the floor is 0 and the new limit is 1. *)
Theorem finish_multiplicative_decrease (u : float64 -> Z)
    (t : transaction) (err : status.error) (l : limiter) :
  overload (status.Code err) = true ->
  (tx_limit t <= limit l ->
   forall q,
     Float64.floor
       (Float64.mul (Float64.of_int64 (limit l)) (backoffRatio l)) = Some q ->
     Int64.in_range q ->
     finish u (Some t) err l = Some (set_limit l (Z.max 1 q))) /\
  (tx_limit t <= limit l ->
   Int64.in_range (limit l) ->
   Float64.in_unit_interval (backoffRatio l) = true ->
   exists q,
     Float64.floor
       (Float64.mul (Float64.of_int64 (limit l)) (backoffRatio l)) = Some q /\
     finish u (Some t) err l = Some (set_limit l (Z.max 1 q))) /\
  (tx_limit t <= limit l ->
   1 <= limit l < 2 ^ 53 ->
   Float64.in_unit_interval (backoffRatio l) = true ->
   exists q,
     exact_floor (limit l) (backoffRatio l) = Some q /\
     (finish u (Some t) err l = Some (set_limit l (Z.max 1 q)) \/
      finish u (Some t) err l = Some (set_limit l (Z.max 1 (q + 1))))) /\
  (limit l < tx_limit t -> finish u (Some t) err l = Some l) /\
  (Float64.floor (Float64.mul (Float64.of_int64 1) ratio_tenth) = Some 0 /\
   exact_floor 1 ratio_tenth = Some 0 /\
   forall n,
     finish u (Some (mkTransaction n 1)) err (mkLimiter ratio_tenth n 1)
     = Some (mkLimiter ratio_tenth n 1)).
Proof.
  intros Ho.
  assert (Hq : tx_limit t <= limit l ->
          forall q,
            Float64.floor
              (Float64.mul (Float64.of_int64 (limit l)) (backoffRatio l))
            = Some q ->
            Int64.in_range q ->
            finish u (Some t) err l = Some (set_limit l (Z.max 1 q))).
  { intros Hge q Hq Hr. rewrite (finish_overload u t err l Ho).
    destruct (limit l >=? tx_limit t) eqn:E; [| lia].
    unfold backoff. now rewrite (to_int64_floor u _ q Hq Hr). }
  split; [exact Hq |]. split; [| split; [| split; [| split; [| split]]]].
  - intros Hge Hl Hr.
    destruct (backoff_product_floor (limit l) (backoffRatio l) Hl Hr)
      as (q & Hfl & Hrange).
    exists q. split; [exact Hfl |]. now apply Hq.
  - intros Hge Hl Hr.
    destruct (mul_exact_floor (limit l) (backoffRatio l) ltac:(lia) Hr)
      as (q & q' & Hex & Hfl & Hq0 & Hqq).
    exists q. split; [exact Hex |].
    assert (Hrange : Int64.in_range q').
    { destruct (backoff_product_floor (limit l) (backoffRatio l))
        as (q2 & E2 & R2);
        [unfold Int64.in_range, Int64.min_int64, Int64.max_int64; lia
        | exact Hr |].
      rewrite Hfl in E2. injection E2 as ->. exact R2. }
    rewrite (Hq Hge q' Hfl Hrange).
    destruct Hqq as [-> | ->]; [left | right]; reflexivity.
  - intros Hlt. rewrite (finish_overload u t err l Ho).
    destruct (limit l >=? tx_limit t) eqn:E; [lia | reflexivity].
  - reflexivity.
  - reflexivity.
  - intros n. rewrite (finish_overload u _ err _ Ho). reflexivity.
Qed.

Lemma finish_multiplicative_decrease_witness :
  finish indefinite (Some (mkTransaction 5 4))
    (status.withStatus codes.Canceled) (mkLimiter ratio_half 5 4)
  = Some (mkLimiter ratio_half 5 2) /\
  (exists q,
     Float64.floor (Float64.mul (Float64.of_int64 4) ratio_half) = Some q /\
     finish indefinite (Some (mkTransaction 5 4))
       (status.withStatus codes.Canceled) (mkLimiter ratio_half 5 4)
     = Some (mkLimiter ratio_half 5 (Z.max 1 q))) /\
  (exists q,
     exact_floor 6 ratio_third = Some q /\
     (finish indefinite (Some (mkTransaction 1 6))
        (status.withStatus codes.Canceled) (mkLimiter ratio_third 1 6)
      = Some (mkLimiter ratio_third 1 (Z.max 1 q)) \/
      finish indefinite (Some (mkTransaction 1 6))
        (status.withStatus codes.Canceled) (mkLimiter ratio_third 1 6)
      = Some (mkLimiter ratio_third 1 (Z.max 1 (q + 1))))) /\
  finish indefinite (Some (mkTransaction 5 4))
    (status.withStatus codes.Canceled) (mkLimiter ratio_half 5 2)
  = Some (mkLimiter ratio_half 5 2).
Proof.
  destruct (finish_multiplicative_decrease indefinite (mkTransaction 5 4)
              (status.withStatus codes.Canceled) (mkLimiter ratio_half 5 4)
              eq_refl) as (H1 & H2 & _).
  destruct (finish_multiplicative_decrease indefinite (mkTransaction 1 6)
              (status.withStatus codes.Canceled) (mkLimiter ratio_third 1 6)
              eq_refl) as (_ & _ & H5 & _).
  destruct (finish_multiplicative_decrease indefinite (mkTransaction 5 4)
              (status.withStatus codes.Canceled) (mkLimiter ratio_half 5 2)
              eq_refl) as (_ & _ & _ & H3 & _).
  split; [| split; [| split]].
  - apply (H1 ltac:(cbn; lia) 2); [reflexivity |].
    unfold Int64.in_range, Int64.min_int64, Int64.max_int64. lia.
  - apply H2; [cbn; lia | | reflexivity].
    cbn. unfold Int64.in_range, Int64.min_int64, Int64.max_int64. lia.
  - apply H5; [cbn; lia | cbn; lia | reflexivity].
  - apply H3. cbn. lia.
Defined.

(** C2 fails as stated, with the product of the formula taken exactly:
    the code multiplies in binary64.  The double nearest to 1/3 lies below
    1/3, so for the limit 6 the formula gives [max 1 (floor 1.99...)], 1,
    while the binary64 product rounds to 2 and [finish] leaves the limit
    2.  Above [2^53] the conversion [float64(limit)] rounds as well: the
    limit [2^54 + 2] becomes [2^54] and is halved to [2^53], one below the
    formula's [2^53 + 1].  Both states are those after the first [start]
    on a new limiter, and both ratios are in (0,1). *)
Lemma finish_multiplicative_decrease_rounds :
  let err := status.withStatus codes.Unavailable in
  overload (status.Code err) = true /\
  (let l := mkLimiter ratio_third 1 6 in
   let t := mkTransaction 1 6 in
   Float64.in_unit_interval (backoffRatio l) = true /\
   start (Limiter 6 ratio_third) = (l, (Some t, true)) /\
   tx_limit t <= limit l /\
   exact_floor (limit l) (backoffRatio l) = Some 1 /\
   forall u,
     finish u (Some t) err l = Some (set_limit l 2) /\
     finish u (Some t) err l <> Some (set_limit l (Z.max 1 1))) /\
  (let l := mkLimiter ratio_half 1 (2 ^ 54 + 2) in
   let t := mkTransaction 1 (2 ^ 54 + 2) in
   Float64.in_unit_interval (backoffRatio l) = true /\
   start (Limiter (2 ^ 54 + 2) ratio_half) = (l, (Some t, true)) /\
   tx_limit t <= limit l /\
   exact_floor (limit l) (backoffRatio l) = Some (2 ^ 53 + 1) /\
   forall u,
     finish u (Some t) err l = Some (set_limit l (2 ^ 53)) /\
     finish u (Some t) err l <> Some (set_limit l (Z.max 1 (2 ^ 53 + 1)))).
Proof.
  cbv zeta. split; [reflexivity |]. split.
  - split; [reflexivity |]. split; [reflexivity |].
    split; [cbn; lia |]. split; [reflexivity |].
    intros u.
    assert (E : finish u (Some (mkTransaction 1 6))
                  (status.withStatus codes.Unavailable)
                  (mkLimiter ratio_third 1 6)
                = Some (set_limit (mkLimiter ratio_third 1 6) 2))
      by (vm_compute; reflexivity).
    split; [exact E |]. rewrite E. vm_compute. discriminate.
  - split; [reflexivity |]. split; [vm_compute; reflexivity |].
    split; [cbn; lia |]. split; [vm_compute; reflexivity |].
    intros u.
    assert (E : finish u (Some (mkTransaction 1 (2 ^ 54 + 2)))
                  (status.withStatus codes.Unavailable)
                  (mkLimiter ratio_half 1 (2 ^ 54 + 2))
                = Some (set_limit (mkLimiter ratio_half 1 (2 ^ 54 + 2))
                          (2 ^ 53)))
      by (vm_compute; reflexivity).
    split; [exact E |]. rewrite E. vm_compute. discriminate.
Qed.

(** The product is rounded to the nearest binary64 value before the
    conversion discards the fraction.  The double nearest to 1/3 lies below
    1/3, so six times it is below 2 in exact arithmetic, yet the binary64
    product is exactly 2 and the limit 6 backs off to 2. *)
Example backoff_rounds_to_nearest :
  (6 * 6004799503160661) / 2 ^ 54 = 1 /\
  Float64.floor (Float64.mul (Float64.of_int64 6) ratio_third) = Some 2 /\
  backoff indefinite (mkLimiter ratio_third 0 6) = 2.
Proof. repeat split; vm_compute; reflexivity. Qed.

(** The run of the limiter with initial limit 4 and ratio 0.5: five
    admissions, a sixth call rejected, an overload settle that halves the
    limit to 2 and a successful settle that raises it to 3. *)
Example aimd_scenario :
  let l0 := Limiter 4 ratio_half in
  let t := Some (mkTransaction 1 4) in
  map (fun n => admitted_nth n l0) [1; 2; 3; 4; 5; 6]%N
  = [true; true; true; true; true; false] /\
  run indefinite
    [Start; Start; Start; Start; Start; Start;
     Finish t (status.withStatus codes.Unavailable)] l0
  = Some (mkLimiter ratio_half 5 2) /\
  run indefinite
    [Start; Start; Start; Start; Start; Start;
     Finish t (status.withStatus codes.Unavailable);
     Finish t status.nil] l0
  = Some (mkLimiter ratio_half 5 3).
Proof. repeat split; vm_compute; reflexivity. Qed.

(** ** The floor of the limit *)

Lemma step_limit_floor (u : float64 -> Z) (c : call) (l l' : limiter) :
  1 <= limit l -> limit l < Int64.max_int64 ->
  step u c l = Some l' -> 1 <= limit l'.
Proof.
  intros H1 Hm. destruct c as [| tx err]; cbn.
  - intros [= <-]. now rewrite start_limit.
  - unfold finish. destruct (overload (status.Code err)).
    + destruct tx as [t |]; [| discriminate].
      destruct (limit l >=? tx_limit t); intros [= <-]; [| assumption].
      cbn. destruct (backoff u l <? 1) eqn:E; lia.
    + destruct (inflight l >? Int64.div (limit l) 2); intros [= <-];
        [| assumption].
      cbn. rewrite incr_below_max; [lia | | assumption].
      unfold Int64.in_range, Int64.min_int64, Int64.max_int64 in *. lia.
Qed.

Lemma count_starts_nonneg (cs : list call) : 0 <= count_starts cs.
Proof. induction cs as [| [| tx err] cs IH]; cbn [count_starts]; lia. Qed.

Lemma count_starts_app (cs cs' : list call) :
  count_starts (cs ++ cs') = count_starts cs + count_starts cs'.
Proof.
  induction cs as [| [| tx err] cs IH]; cbn [count_starts app]; lia.
Qed.

(** The increment can only wrap the limit at [2^63 - 1], and the gate
    [inflight > limit / 2] then asks for [inflight >= 2^62]: fewer than
    [2^62] admissions never get there. *)
Lemma run_limit_floor (u : float64 -> Z) (cs : list call) :
  forall l0 l,
    1 <= limit l0 <= Int64.max_int64 -> 0 <= inflight l0 ->
    inflight l0 + count_starts cs < 2 ^ 62 ->
    run u cs l0 = Some l -> 1 <= limit l.
Proof.
  induction cs as [| c cs IH]; intros l0 l Hl Hi Hc; cbn [run].
  - intros [= <-]. lia.
  - pose proof (count_starts_nonneg cs) as Hn.
    destruct (step u c l0) as [l1 |] eqn:Es; [| discriminate].
    apply IH; destruct c as [| tx err]; cbn [step count_starts] in *.
    + injection Es as <-. now rewrite start_limit.
    + assert (Hw : wf l0)
        by (split; unfold Int64.in_range, Int64.min_int64, Int64.max_int64 in *;
            lia).
      destruct (finish_wf u tx err l0 l1 Hw Es) as [_ Hr].
      split; [| apply Hr].
      destruct (Z.eq_dec (limit l0) Int64.max_int64) as [Hmax | Hmax].
      * revert Es. unfold finish. destruct (overload (status.Code err)).
        -- destruct tx as [t |]; [| discriminate].
           destruct (limit l0 >=? tx_limit t); intros [= <-]; [| lia].
           cbn. destruct (backoff u l0 <? 1) eqn:E; lia.
        -- rewrite Hmax. change (Int64.div Int64.max_int64 2) with (2 ^ 62 - 1).
           destruct (inflight l0 >? 2 ^ 62 - 1) eqn:E; [lia |].
           intros [= <-]. lia.
      * apply (step_limit_floor u (Finish tx err) l0 l1);
          [lia | lia | exact Es].
    + injection Es as <-. unfold start.
      destruct (inflight l0 >? limit l0); cbn; [lia |].
      rewrite incr_below_max;
        unfold Int64.in_range, Int64.min_int64, Int64.max_int64; lia.
    + now rewrite (finish_inflight u tx err l0 l1 Es).
    + injection Es as <-. unfold start.
      destruct (inflight l0 >? limit l0); cbn; [lia |].
      rewrite incr_below_max;
        unfold Int64.in_range, Int64.min_int64, Int64.max_int64; lia.
    + rewrite (finish_inflight u tx err l0 l1 Es). lia.
Qed.

(** C4, amended: for a limiter constructed with an initial limit of at least
    1 and any backoff ratio, and for every sequence of [start] and [finish]
    calls, with any transactions and outcomes, the limit is at least 1 in
    every state reached as long as the limit is below the largest [int64]
    whenever a call is made; every sequence with fewer than [2^62] calls of
    [start] is such a sequence. *)
Theorem limit_at_least_one (u : float64 -> Z) (initial : Z)
    (ratio : float64) :
  1 <= initial <= Int64.max_int64 ->
  (forall l,
     reachable_while u (fun s => limit s < Int64.max_int64)
       (Limiter initial ratio) l ->
     1 <= limit l) /\
  (forall cs l,
     count_starts cs < 2 ^ 62 ->
     run u cs (Limiter initial ratio) = Some l ->
     1 <= limit l).
Proof.
  intros H1. split.
  - intros l H. induction H as [| l l' c _ IH Hm Hs]; [cbn; lia |].
    eapply step_limit_floor; eauto.
  - intros cs l Hc. apply run_limit_floor; cbn [Limiter limit inflight]; lia.
Qed.

Lemma limit_at_least_one_witness :
  1 <= limit (mkLimiter ratio_half 1 2) /\
  1 <= limit (mkLimiter ratio_half 2 3).
Proof.
  assert (H4 : 1 <= 4 <= Int64.max_int64) by (vm_compute; split; discriminate).
  destruct (limit_at_least_one indefinite 4 ratio_half H4) as [Hr Hc].
  split.
  - apply Hr.
    apply (reach_step indefinite _ _ (mkLimiter ratio_half 1 4) _
             (Finish (Some (mkTransaction 1 4))
                (status.withStatus codes.Unavailable))).
    + apply (reach_step indefinite _ _ (Limiter 4 ratio_half) _ Start).
      * apply reach_init.
      * vm_compute. reflexivity.
      * reflexivity.
    + vm_compute. reflexivity.
    + reflexivity.
  - apply (Hc [Start; Start;
               Finish (Some (mkTransaction 2 4))
                 (status.withStatus codes.Unavailable);
               Finish (Some (mkTransaction 1 4)) status.nil]).
    + vm_compute. reflexivity.
    + vm_compute. reflexivity.
Defined.

(** C4 fails as stated: a limiter constructed with limit [2^63 - 1] and
    ratio 0.5, which lies in (0,1), reaches after [2^62] admissions and one
    successful settle a state whose limit is [-2^63]. *)
Lemma limit_wraps_below_one :
  1 <= Int64.max_int64 /\
  Float64.in_unit_interval ratio_half = true /\
  exists l,
    reachable indefinite (Limiter Int64.max_int64 ratio_half) l /\
    limit l = Int64.min_int64 /\ ~ 1 <= limit l.
Proof.
  split; [vm_compute; discriminate |]. split; [reflexivity |].
  exists (mkLimiter ratio_half (2 ^ 62) Int64.min_int64).
  split; [| split; [reflexivity | vm_compute; tauto]].
  apply (reach_step indefinite _ _
           (mkLimiter ratio_half (2 ^ 62) Int64.max_int64) _
           (Finish (Some (mkTransaction 1 Int64.max_int64)) status.nil)).
  - pose proof (reachable_starts indefinite (2 ^ 62)%N
                  (Limiter Int64.max_int64 ratio_half)) as R.
    rewrite starts_admitted in R; [exact R | | |]; cbn;
      unfold Int64.in_range, Int64.min_int64, Int64.max_int64; lia.
  - exact I.
  - vm_compute. reflexivity.
Qed.

(** ** The admission bound *)

(** C5, amended: on a freshly constructed limiter with initial limit [c],
    [1 <= c < 2^63 - 1], calls of [start] with no [finish] in between are
    admitted for the first [c + 1] calls and rejected from call [c + 2]
    on. *)
Theorem admission_bound (c : Z) (ratio : float64) (n : N) :
  1 <= c < Int64.max_int64 ->
  (1 <= Z.of_N n <= c + 1 -> admitted_nth n (Limiter c ratio) = true) /\
  (c + 1 < Z.of_N n -> admitted_nth n (Limiter c ratio) = false).
Proof.
  intros Hc. unfold admitted_nth. split; intros Hn.
  - rewrite starts_admitted; cbn;
      unfold Int64.in_range, Int64.min_int64, Int64.max_int64 in *; try lia.
    rewrite start_admits by (cbn; lia). reflexivity.
  - replace (N.pred n) with (N.pred n - Z.to_N (c + 1) + Z.to_N (c + 1))%N
      by lia.
    rewrite starts_add.
    rewrite (starts_admitted (Z.to_N (c + 1))); cbn;
      unfold Int64.in_range, Int64.min_int64, Int64.max_int64 in *; try lia.
    rewrite starts_rejected by (cbn; lia).
    rewrite start_rejects by (cbn; lia). reflexivity.
Qed.

Lemma admission_bound_witness :
  admitted_nth 5 (Limiter 4 ratio_half) = true /\
  admitted_nth 6 (Limiter 4 ratio_half) = false.
Proof.
  split.
  - apply (proj1 (admission_bound 4 ratio_half 5
                    ltac:(unfold Int64.max_int64; lia))). cbn. lia.
  - apply (proj2 (admission_bound 4 ratio_half 6
                    ltac:(unfold Int64.max_int64; lia))). cbn. lia.
Defined.

(** C5 fails as stated for the initial limit [c = 2^63 - 1]: call number
    [c + 1] wraps [inflight] to [-2^63], so call number [c + 2] is admitted
    again. *)
Lemma admission_bound_wraps :
  1 <= Int64.max_int64 /\
  Int64.max_int64 + 1 < Z.of_N (2 ^ 63 + 1) /\
  admitted_nth (2 ^ 63 + 1) (Limiter Int64.max_int64 ratio_half) = true.
Proof.
  split; [vm_compute; discriminate |]. split; [vm_compute; reflexivity |].
  unfold admitted_nth.
  replace (N.pred (2 ^ 63 + 1)) with (N.succ (2 ^ 63 - 1)) by reflexivity.
  rewrite starts_succ.
  rewrite starts_admitted; cbn - [N.sub N.pow Z.of_N];
    unfold Int64.in_range, Int64.min_int64, Int64.max_int64; try lia.
  reflexivity.
Qed.

(** ** The in-flight counter *)

Lemma step_inflight (u : float64 -> Z) (c : call) (l l' : limiter) :
  Int64.in_range (inflight l) -> inflight l < Int64.max_int64 ->
  step u c l = Some l' ->
  Int64.in_range (inflight l') /\ inflight l <= inflight l'.
Proof.
  intros Hr Hm. destruct c as [| tx err]; cbn.
  - intros [= <-]. unfold start.
    destruct (inflight l >? limit l); cbn; [split; [assumption | lia] |].
    rewrite incr_below_max by assumption.
    unfold Int64.in_range in *. lia.
  - intros H. rewrite (finish_inflight u tx err l l' H).
    split; [assumption | lia].
Qed.

Lemma run_inflight (u : float64 -> Z) (cs : list call) :
  forall l0 l,
    Int64.in_range (inflight l0) ->
    inflight l0 + count_starts cs <= Int64.max_int64 ->
    run u cs l0 = Some l ->
    inflight l0 <= inflight l <= inflight l0 + count_starts cs.
Proof.
  induction cs as [| c cs IH]; intros l0 l Hr Hc; cbn [run].
  - intros [= <-]. cbn [count_starts]. lia.
  - pose proof (count_starts_nonneg cs) as Hn.
    destruct (step u c l0) as [l1 |] eqn:Es; [| discriminate].
    intros Hrun. destruct c as [| tx err]; cbn [count_starts] in *.
    + destruct (step_inflight u Start l0 l1 Hr ltac:(lia) Es) as [Hr1 Hle].
      assert (Hup : inflight l1 <= inflight l0 + 1).
      { cbn in Es. injection Es as <-. unfold start.
        destruct (inflight l0 >? limit l0); cbn; [lia |].
        rewrite incr_below_max by (assumption || lia). lia. }
      specialize (IH l1 l Hr1 ltac:(lia) Hrun). lia.
    + cbn in Es. pose proof (finish_inflight u tx err l0 l1 Es) as E.
      rewrite <- E in Hr, Hc |- *. now apply IH.
Qed.

(** C7, amended: [finish] never modifies [inflight], for any transaction and
    outcome; [start] never decreases it while it is below the largest
    [int64], adding 1 on the admitted path and nothing on the rejected one;
    so [inflight] never decreases over a sequence of calls during which it
    is below the largest [int64] whenever a call is made, and every
    sequence with at most [2^63 - 1] calls of [start] on a freshly
    constructed limiter is such a sequence. *)
Theorem inflight_never_decreases (u : float64 -> Z) :
  (forall tx err l l',
     finish u tx err l = Some l' -> inflight l' = inflight l) /\
  (forall l,
     Int64.in_range (inflight l) -> inflight l < Int64.max_int64 ->
     inflight (fst (start l)) =
       (if snd (snd (start l)) then inflight l + 1 else inflight l)) /\
  (forall l0 l,
     Int64.in_range (inflight l0) ->
     reachable_while u (fun s => inflight s < Int64.max_int64) l0 l ->
     inflight l0 <= inflight l) /\
  (forall initial ratio cs cs' l l',
     count_starts (cs ++ cs') <= Int64.max_int64 ->
     run u cs (Limiter initial ratio) = Some l ->
     run u cs' l = Some l' ->
     0 <= inflight l <= inflight l').
Proof.
  split; [| split; [| split]].
  - apply finish_inflight.
  - intros l Hr Hm. unfold start.
    destruct (inflight l >? limit l); cbn; [reflexivity |].
    now apply incr_below_max.
  - intros l0 l Hr H.
    enough (Int64.in_range (inflight l) /\ inflight l0 <= inflight l) by tauto.
    induction H as [| l l' c _ [IHr IHle] Hm Hs]; [split; [assumption | lia] |].
    destruct (step_inflight u c l l' IHr Hm Hs). split; [assumption | lia].
  - intros initial ratio cs cs' l l' Hc Hl Hl'.
    rewrite count_starts_app in Hc.
    pose proof (count_starts_nonneg cs) as Hn.
    pose proof (count_starts_nonneg cs') as Hn'.
    assert (Hr0 : Int64.in_range (inflight (Limiter initial ratio)))
      by (cbn; unfold Int64.in_range, Int64.min_int64, Int64.max_int64; lia).
    pose proof (run_inflight u cs _ l Hr0
                  ltac:(cbn [Limiter inflight]; lia) Hl) as B.
    cbn [Limiter inflight] in B.
    assert (Hr1 : Int64.in_range (inflight l))
      by (unfold Int64.in_range, Int64.min_int64, Int64.max_int64 in *; lia).
    pose proof (run_inflight u cs' l l' Hr1 ltac:(lia) Hl') as B'. lia.
Qed.

Lemma inflight_never_decreases_witness :
  inflight (mkLimiter ratio_half 2 3) = inflight (mkLimiter ratio_half 2 2) /\
  inflight (fst (start (mkLimiter ratio_half 2 2))) = 3 /\
  inflight (Limiter 4 ratio_half) <= inflight (mkLimiter ratio_half 1 4) /\
  0 <= inflight (mkLimiter ratio_half 1 4)
    <= inflight (mkLimiter ratio_half 2 4).
Proof.
  destruct (inflight_never_decreases indefinite) as (Hf & Hs & Hr & Hc).
  split; [| split; [| split]].
  - apply (Hf None status.nil). vm_compute. reflexivity.
  - apply (Hs (mkLimiter ratio_half 2 2)); cbn;
      unfold Int64.in_range, Int64.min_int64, Int64.max_int64; lia.
  - apply Hr.
    + cbn. unfold Int64.in_range, Int64.min_int64, Int64.max_int64. lia.
    + apply (reach_step indefinite _ _ (Limiter 4 ratio_half) _ Start).
      * apply reach_init.
      * vm_compute. reflexivity.
      * reflexivity.
  - apply (Hc 4 ratio_half [Start] [Start; Finish None status.nil]).
    + vm_compute. discriminate.
    + reflexivity.
    + vm_compute. reflexivity.
Defined.

(** C7 fails as stated: a limiter constructed with limit [2^63 - 1] reaches
    [inflight = 2^63 - 1], where the next [start] is admitted and wraps
    [inflight] to [-2^63]. *)
Lemma inflight_wraps :
  let l := mkLimiter ratio_half Int64.max_int64 Int64.max_int64 in
  reachable indefinite (Limiter Int64.max_int64 ratio_half) l /\
  snd (snd (start l)) = true /\
  inflight (fst (start l)) = Int64.min_int64 /\
  inflight (fst (start l)) < inflight l.
Proof.
  cbv zeta. split; [| split; [| split]]; try (vm_compute; reflexivity).
  pose proof (reachable_starts indefinite (2 ^ 63 - 1)%N
                (Limiter Int64.max_int64 ratio_half)) as R.
  rewrite starts_admitted in R; [exact R | | |]; cbn;
    unfold Int64.in_range, Int64.min_int64, Int64.max_int64; lia.
Qed.

(** ** Construction without validation *)

Lemma backoff_zero (u : float64 -> Z) (l : limiter) :
  limit l = 0 -> Float64.is_finite (backoffRatio l) = true ->
  backoff u l = 0.
Proof.
  intros H0 Hf. unfold backoff. rewrite H0.
  destruct (backoffRatio l) as [s | s | | s m e]; try discriminate;
    reflexivity.
Qed.

(** C9, amended: [Limiter] stores the initial limit and the backoff ratio
    it is given, whatever they are.  On a limiter constructed with limit 0
    the first [start] is admitted ([0 > 0] is false) and the limit is still
    0 after any number of [start] calls; the first [finish] after an
    admission raises it to 1: an overload settle by the clamp (for a finite
    backoff ratio and a transaction admitted at limit 0), and a settle with
    any other outcome by the additive increase, because
    [inflight >= 1 > 0 / 2].  Only with nothing admitted does such a settle
    leave the limit at 0. *)
Theorem zero_initial_limit (u : float64 -> Z) (ratio : float64) :
  (forall initial,
     limit (Limiter initial ratio) = initial /\
     backoffRatio (Limiter initial ratio) = ratio) /\
  start (Limiter 0 ratio) =
    (mkLimiter ratio 1 0, (Some (mkTransaction 1 0), true)) /\
  (forall n, limit (starts n (Limiter 0 ratio)) = 0) /\
  (forall l t err,
     limit l = 0 -> Float64.is_finite (backoffRatio l) = true ->
     tx_limit t <= 0 -> overload (status.Code err) = true ->
     finish u (Some t) err l = Some (set_limit l 1)) /\
  (forall l tx err,
     limit l = 0 -> 1 <= inflight l -> overload (status.Code err) = false ->
     finish u tx err l = Some (set_limit l 1)) /\
  (forall l tx err,
     limit l = 0 -> inflight l <= 0 -> overload (status.Code err) = false ->
     finish u tx err l = Some l).
Proof.
  split; [intros initial; split; reflexivity |]. split; [reflexivity |].
  split; [intros n; now rewrite starts_limit |].
  split.
  - intros l t err H0 Hf Ht Ho.
    rewrite (finish_overload u t err l Ho), (backoff_zero u l H0 Hf), H0.
    destruct (0 >=? tx_limit t) eqn:E; [reflexivity | lia].
  - split; intros l tx err H0 Hi Ho;
      rewrite (finish_other u tx err l Ho), H0;
      change (Int64.div 0 2) with 0; change (Int64.incr 0) with 1;
      destruct (inflight l >? 0) eqn:E; first [reflexivity | lia].
Qed.

Lemma zero_initial_limit_witness :
  finish indefinite (Some (mkTransaction 1 0))
    (status.withStatus codes.Unavailable) (mkLimiter ratio_half 1 0)
  = Some (mkLimiter ratio_half 1 1) /\
  finish indefinite (Some (mkTransaction 1 0)) status.nil
    (mkLimiter ratio_half 1 0)
  = Some (mkLimiter ratio_half 1 1).
Proof.
  destruct (zero_initial_limit indefinite ratio_half)
    as (_ & _ & _ & Ho & Hn & _).
  split.
  - apply (Ho (mkLimiter ratio_half 1 0)); first [reflexivity | cbn; lia].
  - apply (Hn (mkLimiter ratio_half 1 0)); first [reflexivity | cbn; lia].
Defined.

(** C9 fails as stated: on a limiter constructed with limit 0, the first
    admission followed by a successful settle, with no overload settle at
    all, already leaves the limit at 1. *)
Lemma zero_initial_limit_raised_without_overload :
  overload (status.Code status.nil) = false /\
  exists t l,
    start (Limiter 0 ratio_half) = (l, (Some t, true)) /\
    limit l = 0 /\
    finish indefinite (Some t) status.nil l = Some (set_limit l 1) /\
    run indefinite [Start; Finish (Some t) status.nil] (Limiter 0 ratio_half)
    = Some (mkLimiter ratio_half 1 1).
Proof.
  split; [reflexivity |].
  do 2 eexists. repeat split.
Qed.

(** * The interceptor *)

Lemma enter_refuses (l : limiter) :
  inflight l > limit l ->
  enter l = Some (l, [(RejectedRequests, 1)], Refused limitReached).
Proof. intros H. unfold enter. now rewrite (start_rejects l H). Qed.

Lemma enter_handles (l : limiter) :
  inflight l <= limit l ->
  enter l =
    Some (set_inflight l (Int64.incr (inflight l)),
          [(RequestLimit, limit l);
           (InflightRequests, Int64.incr (inflight l))],
          Handling (mkTransaction (Int64.incr (inflight l)) (limit l))).
Proof. intros H. unfold enter. now rewrite (start_admits l H). Qed.

(** X1: the first half of the interceptor never panics and refuses a
    request exactly when [inflight > limit].  A refusal leaves the limiter
    untouched, records the single measurement [RejectedRequests = 1] and
    answers with a status of code [Unavailable], a code that [finish] itself
    reads as an overload signal.  Otherwise the handler is called, and the
    measurements recorded are the limit at admission and the incremented
    [inflight], the two fields of the transaction. *)
Theorem enter_contract (l : limiter) :
  enter l <> None /\
  (forall l' ms e,
     enter l = Some (l', ms, e) ->
     match e with
     | Refused err =>
         inflight l > limit l /\ l' = l /\
         ms = [(RejectedRequests, 1)] /\
         status.Code err = codes.Unavailable /\
         overload (status.Code err) = true
     | Handling t =>
         inflight l <= limit l /\
         l' = set_inflight l (Int64.incr (inflight l)) /\
         ms = [(RequestLimit, tx_limit t);
               (InflightRequests, tx_inflight t)] /\
         tx_limit t = limit l /\ tx_inflight t = inflight l'
     end).
Proof.
  destruct (Z_gt_le_dec (inflight l) (limit l)) as [H | H].
  - rewrite (enter_refuses l H). split; [discriminate |].
    intros l' ms e [= <- <- <-]. repeat split; assumption.
  - rewrite (enter_handles l H). split; [discriminate |].
    intros l' ms e [= <- <- <-]. repeat split; assumption.
Qed.

Lemma enter_contract_witness :
  (5 > 4 /\ mkLimiter ratio_half 5 4 = mkLimiter ratio_half 5 4 /\
   [(RejectedRequests, 1)] = [(RejectedRequests, 1)] /\
   status.Code limitReached = codes.Unavailable /\
   overload (status.Code limitReached) = true) /\
  (4 <= 4 /\
   mkLimiter ratio_half 5 4 =
     set_inflight (mkLimiter ratio_half 4 4) (Int64.incr 4) /\
   [(RequestLimit, 4); (InflightRequests, 5)] =
     [(RequestLimit, 4); (InflightRequests, 5)] /\
   4 = 4 /\ 5 = 5).
Proof.
  split.
  - exact (proj2 (enter_contract (mkLimiter ratio_half 5 4)) _ _
             (Refused limitReached) eq_refl).
  - exact (proj2 (enter_contract (mkLimiter ratio_half 4 4)) _ _
             (Handling (mkTransaction 5 4)) eq_refl).
Defined.

(** X2: one whole call of the interceptor, nothing interleaved, on a
    limiter whose limit is below the largest [int64].  A refused call
    answers [nil] and the [Unavailable] status without consulting the
    handler.  An admitted call hands back exactly what the handler yielded,
    a panic included, and leaves the limiter with [inflight + 1] and with
    the limit raised by 1 exactly when [inflight + 1 > limit / 2]: the
    deferred [finish] was given the nil error, so not even a handler that
    fails with [Unavailable] lowers the limit. *)
Theorem interceptor_call (u : float64 -> Z) (response : Type)
    (h : outcome response) (l : limiter) :
  wf l -> limit l < Int64.max_int64 ->
  (inflight l > limit l ->
   interceptor u h l =
     Some (l, [(RejectedRequests, 1)], Returned None limitReached)) /\
  (inflight l <= limit l ->
   interceptor u h l =
     Some (mkLimiter (backoffRatio l) (inflight l + 1)
             (if inflight l + 1 >? Z.quot (limit l) 2
              then limit l + 1 else limit l),
           [(RequestLimit, limit l); (InflightRequests, inflight l + 1)],
           h)).
Proof.
  intros [Hi Hl] Hm. unfold interceptor. split; intros H.
  - now rewrite (enter_refuses l H).
  - rewrite (enter_handles l H). unfold deferred.
    rewrite finish_other by reflexivity. cbn [inflight limit set_inflight].
    rewrite (incr_below_max _ Hi ltac:(lia)), (div_two _ Hl).
    destruct (inflight l + 1 >? Z.quot (limit l) 2); [| reflexivity].
    unfold set_limit. cbn. now rewrite (incr_below_max _ Hl Hm).
Qed.

Lemma interceptor_call_witness :
  interceptor indefinite (@Panicked unit) (mkLimiter ratio_half 5 4) =
    Some (mkLimiter ratio_half 5 4, [(RejectedRequests, 1)],
          Returned None limitReached) /\
  interceptor indefinite
    (Returned (Some tt) (status.withStatus codes.Unavailable))
    (mkLimiter ratio_half 2 4) =
    Some (mkLimiter ratio_half 3 5,
          [(RequestLimit, 4); (InflightRequests, 3)],
          Returned (Some tt) (status.withStatus codes.Unavailable)).
Proof.
  assert (W : forall i, - 1 <= i <= 5 -> wf (mkLimiter ratio_half i 4)).
  { intros i Hi. split; cbn;
      unfold Int64.in_range, Int64.min_int64, Int64.max_int64; lia. }
  assert (M : limit (mkLimiter ratio_half 5 4) < Int64.max_int64)
    by (vm_compute; reflexivity).
  split.
  - apply (proj1 (interceptor_call indefinite unit Panicked
                    (mkLimiter ratio_half 5 4) (W 5 ltac:(lia)) M)).
    cbn. lia.
  - apply (proj2 (interceptor_call indefinite unit
                    (Returned (Some tt) (status.withStatus codes.Unavailable))
                    (mkLimiter ratio_half 2 4) (W 2 ltac:(lia)) M)).
    cbn. lia.
Defined.

(** * A server behind the interceptor *)

Lemma length_without (A : Type) (xs : list A) (i : nat) (x : A) :
  nth_error xs i = Some x ->
  Z.of_nat (length (firstn i xs ++ skipn (S i) xs))
  = Z.of_nat (length xs) - 1.
Proof.
  intros H.
  assert (Hi : (i < length xs)%nat)
    by (apply nth_error_Some; rewrite H; discriminate).
  rewrite length_app, length_firstn, length_skipn. lia.
Qed.

Section ServerFacts.

Variable u : float64 -> Z.
Variable response : Type.

Implicit Types (e : event response) (s : server).

(** What one event does to the books, while [inflight] is below [2^62]. *)
Lemma serve_step e s s' :
  balanced s -> inflight (shared s) < 2 ^ 62 ->
  serve u e s = Some s' ->
  balanced s' /\
  limit (shared s) <= limit (shared s') /\
  inflight (shared s') - Z.of_nat (length (running s'))
  = inflight (shared s) - Z.of_nat (length (running s))
    + count_finished [e] /\
  inflight (shared s) <= inflight (shared s')
  <= inflight (shared s) + count_arrivals [e] /\
  limit (shared s') <= limit (shared s) + count_finished [e].
Proof.
  intros (Hl & Hn & Hb & H1) Hlt. destruct s as [l rs]. cbn in *.
  assert (Hr : Int64.in_range (inflight l))
    by (unfold Int64.in_range, Int64.min_int64, Int64.max_int64; lia).
  assert (Hrl : Int64.in_range (limit l))
    by (unfold Int64.in_range, Int64.min_int64, Int64.max_int64 in *; lia).
  destruct e as [| i h]; cbn [serve shared running].
  - destruct (Z_gt_le_dec (inflight l) (limit l)) as [H | H].
    + rewrite (enter_refuses l H). intros [= <-]. cbn.
      unfold balanced; cbn. lia.
    + rewrite (enter_handles l H). intros [= <-]. cbn.
      rewrite incr_below_max
        by (assumption || unfold Int64.max_int64; lia).
      unfold balanced; cbn. rewrite length_app. cbn. lia.
  - destruct (nth_error rs i) as [t |] eqn:Et; [| discriminate].
    pose proof (length_without _ rs i t Et) as Hlen.
    assert (Hpos : 1 <= Z.of_nat (length rs)) by lia.
    cbn [skipn] in Hlen.
    unfold deferred. rewrite finish_other by reflexivity.
    rewrite (div_two _ Hrl).
    pose proof (Z.quot_rem' (limit l) 2) as Eq.
    pose proof (Z.rem_bound_pos (limit l) 2 ltac:(lia) ltac:(lia)) as Br.
    destruct (inflight l >? Z.quot (limit l) 2) eqn:Eg; intros [= <-].
    + assert (Hmax : limit l < Int64.max_int64).
      { unfold Int64.max_int64 in *.
        destruct (Z.eq_dec (limit l) (2 ^ 63 - 1)) as [E | E]; [| lia].
        exfalso. rewrite E in Eg. change (Z.quot (2 ^ 63 - 1) 2)
          with (2 ^ 62 - 1) in Eg. lia. }
      unfold balanced; cbn [shared running]. rewrite !Hlen. cbn.
      rewrite (incr_below_max _ Hrl Hmax). lia.
    + unfold balanced; cbn [shared running]. rewrite !Hlen. cbn. lia.
Qed.

Lemma count_arrivals_nonneg (es : list (event response)) :
  0 <= count_arrivals es.
Proof. induction es as [| [| i h] es IH]; cbn [count_arrivals]; lia. Qed.

Lemma count_arrivals_app (es es' : list (event response)) :
  count_arrivals (es ++ es') = count_arrivals es + count_arrivals es'.
Proof.
  induction es as [| [| i h] es IH]; cbn [count_arrivals app]; lia.
Qed.

(** The books after any sequence of events. *)
Lemma serve_all_books (es : list (event response)) :
  forall s s',
    balanced s -> inflight (shared s) + count_arrivals es < 2 ^ 62 ->
    serve_all u es s = Some s' ->
    balanced s' /\
    limit (shared s) <= limit (shared s') /\
    inflight (shared s') - Z.of_nat (length (running s'))
    = inflight (shared s) - Z.of_nat (length (running s))
      + count_finished es /\
    inflight (shared s) <= inflight (shared s')
    <= inflight (shared s) + count_arrivals es /\
    limit (shared s') <= limit (shared s) + count_finished es.
Proof.
  induction es as [| e es IH]; intros s s' Hb Hc; cbn [serve_all].
  - intros [= <-]. split; [exact Hb |].
    cbn [count_finished count_arrivals]. lia.
  - destruct (serve u e s) as [s1 |] eqn:Es; [| discriminate].
    intros Hs'.
    pose proof (count_arrivals_nonneg es) as Hn.
    assert (Hlt : inflight (shared s) < 2 ^ 62)
      by (destruct e; cbn [count_arrivals] in Hc; lia).
    destruct (serve_step e s s1 Hb Hlt Es) as (Hb1 & Hl1 & Hd1 & Hi1).
    assert (Hc1 : inflight (shared s1) + count_arrivals es < 2 ^ 62)
      by (destruct e; cbn [count_arrivals] in *; lia).
    destruct (IH s1 s' Hb1 Hc1 Hs') as (Hb2 & Hl2 & Hd2 & Hi2).
    split; [exact Hb2 |].
    destruct e; cbn [count_arrivals count_finished] in *; lia.
Qed.

Lemma boot_balanced (initial : Z) (ratio : float64) :
  0 <= initial <= Int64.max_int64 ->
  balanced (mkServer (Limiter initial ratio) []).
Proof.
  intros H. unfold balanced. cbn [shared running Limiter limit inflight length].
  lia.
Qed.

End ServerFacts.

(** X3: behind the interceptor the limit never goes down.  On a server
    started with an initial limit that is a natural [int64], over any
    sequence of arrivals and handler completions with fewer than [2^62]
    arrivals, the limit after a longer run is at least the limit after a
    shorter one, and both are at least the initial limit, whatever the
    handlers yield: an [Unavailable], [Canceled] or [DeadlineExceeded] error
    or a panic never reaches the multiplicative decrease.  Each completed
    call raises the limit by at most one. *)
Theorem interceptor_never_lowers_limit (u : float64 -> Z) (response : Type)
    (initial : Z) (ratio : float64) (es es' : list (event response))
    (s s' : server) :
  0 <= initial <= Int64.max_int64 ->
  count_arrivals (es ++ es') < 2 ^ 62 ->
  serve_all u es (mkServer (Limiter initial ratio) []) = Some s ->
  serve_all u es' s = Some s' ->
  initial <= limit (shared s) <= limit (shared s') /\
  limit (shared s') <= limit (shared s) + count_finished es'.
Proof.
  intros Hi Hc Hs Hs'. rewrite count_arrivals_app in Hc.
  pose proof (count_arrivals_nonneg response es) as Hn.
  pose proof (count_arrivals_nonneg response es') as Hn'.
  destruct (serve_all_books u response es _ s (boot_balanced initial ratio Hi)
              ltac:(cbn [shared Limiter inflight]; lia) Hs)
    as (Hb & Hl & _ & Hin & _).
  cbn [shared Limiter inflight limit] in Hl, Hin.
  destruct (serve_all_books u response es' s s' Hb ltac:(lia) Hs')
    as (_ & Hl' & _ & _ & Hup).
  lia.
Qed.

Lemma interceptor_never_lowers_limit_witness :
  4 <= limit (mkLimiter ratio_half 2 4) <= limit (mkLimiter ratio_half 3 5) /\
  limit (mkLimiter ratio_half 3 5)
  <= limit (mkLimiter ratio_half 2 4)
     + count_finished [Arrive; Finished 1 (@Panicked unit)].
Proof.
  apply (interceptor_never_lowers_limit indefinite unit 4 ratio_half
           [Arrive; Arrive;
            Finished 0 (Returned None (status.withStatus codes.Unavailable))]
           [Arrive; Finished 1 Panicked]
           (mkServer (mkLimiter ratio_half 2 4) [mkTransaction 2 4])
           (mkServer (mkLimiter ratio_half 3 5) [mkTransaction 2 4])).
  - vm_compute. split; discriminate.
  - vm_compute. reflexivity.
  - vm_compute. reflexivity.
  - vm_compute. reflexivity.
Defined.

(** X4: the concurrency bound the interceptor does enforce.  On such a
    server the number of handlers running at any time is at most the
    current limit plus one. *)
Theorem running_calls_bounded (u : float64 -> Z) (response : Type)
    (initial : Z) (ratio : float64) (es : list (event response))
    (s : server) :
  0 <= initial <= Int64.max_int64 ->
  count_arrivals es < 2 ^ 62 ->
  serve_all u es (mkServer (Limiter initial ratio) []) = Some s ->
  Z.of_nat (length (running s)) <= limit (shared s) + 1.
Proof.
  intros Hi Hc Hs.
  destruct (serve_all_books u response es _ s (boot_balanced initial ratio Hi)
              ltac:(cbn [shared Limiter inflight]; lia) Hs)
    as ((_ & Hn & _ & H1) & _).
  lia.
Qed.

Lemma running_calls_bounded_witness :
  Z.of_nat (length [mkTransaction 1 0]) <= limit (mkLimiter ratio_half 1 0) + 1.
Proof.
  apply (running_calls_bounded indefinite unit 0 ratio_half
           [Arrive; Arrive; Arrive]
           (mkServer (mkLimiter ratio_half 1 0) [mkTransaction 1 0])).
  - vm_compute. split; discriminate.
  - vm_compute. reflexivity.
  - vm_compute. reflexivity.
Defined.

(** X5: [inflight] does not count the requests in flight.  On such a server
    it equals the number of handlers still running plus the number of
    handlers that have ever completed, that is the number of requests ever
    admitted. *)
Theorem inflight_counts_admissions (u : float64 -> Z) (response : Type)
    (initial : Z) (ratio : float64) (es : list (event response))
    (s : server) :
  0 <= initial <= Int64.max_int64 ->
  count_arrivals es < 2 ^ 62 ->
  serve_all u es (mkServer (Limiter initial ratio) []) = Some s ->
  inflight (shared s) = Z.of_nat (length (running s)) + count_finished es.
Proof.
  intros Hi Hc Hs.
  destruct (serve_all_books u response es _ s (boot_balanced initial ratio Hi)
              ltac:(cbn [shared Limiter inflight]; lia) Hs)
    as (_ & _ & Hd & _).
  cbn [shared running Limiter inflight length] in Hd. lia.
Qed.

Lemma inflight_counts_admissions_witness :
  inflight (mkLimiter ratio_half 3 5)
  = Z.of_nat (length [mkTransaction 2 4])
    + count_finished
        [Arrive; Arrive; Finished 0 (@Panicked unit); Arrive;
         Finished 1 Panicked].
Proof.
  apply (inflight_counts_admissions indefinite unit 4 ratio_half
           [Arrive; Arrive; Finished 0 Panicked; Arrive; Finished 1 Panicked]
           (mkServer (mkLimiter ratio_half 3 5) [mkTransaction 2 4])).
  - vm_compute. split; discriminate.
  - vm_compute. reflexivity.
  - vm_compute. reflexivity.
Defined.

Lemma serve_one (u : float64 -> Z) (response : Type) (h : outcome response)
    (s : server) :
  balanced s -> running s = [] -> inflight (shared s) + 1 < 2 ^ 62 ->
  exists s',
    serve_all u [Arrive; Finished 0 h] s = Some s' /\
    balanced s' /\ running s' = [] /\
    inflight (shared s') = inflight (shared s) + 1.
Proof.
  intros Hb Hr Hlt. destruct s as [l rs]. cbn [shared running] in *. subst rs.
  assert (Hle : inflight l <= limit l)
    by (destruct Hb as (_ & _ & H & _); cbn [shared running length] in H; lia).
  remember (mkTransaction (Int64.incr (inflight l)) (limit l)) as t eqn:Et.
  remember (set_inflight l (Int64.incr (inflight l))) as l1 eqn:El1.
  assert (E1 : serve u (@Arrive response) (mkServer l [])
               = Some (mkServer l1 [t])).
  { cbn [serve shared running]. rewrite (enter_handles l Hle).
    now subst t l1. }
  destruct (serve_step u response _ _ _ Hb
              ltac:(cbn [shared]; lia) E1) as (Hb1 & _ & Hd1 & Hi1).
  cbn [count_arrivals count_finished shared running length] in Hd1, Hi1.
  destruct (finish_returns u t status.nil l1) as [l2 El2].
  assert (E2 : serve u (Finished 0 h) (mkServer l1 [t])
               = Some (mkServer l2 [])).
  { cbn [serve shared running nth_error]. unfold deferred. now rewrite El2. }
  destruct (serve_step u response _ _ _ Hb1 ltac:(cbn [shared]; lia) E2)
    as (Hb2 & _ & Hd2 & Hi2).
  cbn [count_arrivals count_finished shared running length] in Hd2, Hi2.
  exists (mkServer l2 []). cbn [serve_all]. rewrite E1, E2.
  split; [reflexivity |]. split; [exact Hb2 |]. split; [reflexivity |].
  cbn [shared]. lia.
Qed.

Lemma serve_one_by_one (u : float64 -> Z) (response : Type)
    (hs : list (outcome response)) :
  forall s,
    balanced s -> running s = [] ->
    inflight (shared s) + Z.of_nat (length hs) < 2 ^ 62 ->
    exists s',
      serve_all u (one_by_one hs) s = Some s' /\
      balanced s' /\ running s' = [] /\
      inflight (shared s') = inflight (shared s) + Z.of_nat (length hs).
Proof.
  induction hs as [| h hs IH]; intros s Hb Hr Hc.
  - exists s. cbn [one_by_one serve_all length].
    split; [reflexivity |]. split; [exact Hb |]. split; [exact Hr | lia].
  - cbn [length] in Hc. rewrite Nat2Z.inj_succ in Hc.
    destruct (serve_one u response h s Hb Hr ltac:(lia))
      as (s1 & E1 & Hb1 & Hr1 & Hi1).
    destruct (IH s1 Hb1 Hr1 ltac:(lia)) as (s' & E' & Hb' & Hr' & Hi').
    exists s'. split; [| split; [exact Hb' | split; [exact Hr' |]]].
    + cbn [one_by_one serve_all] in *.
      destruct (serve u Arrive s) as [sa |]; [| discriminate].
      destruct (serve u (Finished 0 h) sa) as [sb |]; [| discriminate].
      injection E1 as ->. exact E'.
    + cbn [length]. rewrite Nat2Z.inj_succ. lia.
Qed.

(** X6: the interceptor cannot lock a server out.  On a server started with
    an initial limit that is a natural [int64], after any sequence of
    arrivals and completions with fewer than [2^62] arrivals, a request that
    arrives while no call is pending, every call admitted so far having run
    its deferred [finish], is admitted; and requests served one after the
    other, each through its deferred [finish] before the next arrives, are
    all admitted, whatever their handlers yield.  A handler that is back is
    not enough: until the deferred [finish] of its call has run the call is
    pending, and with the initial limit 0 a second request that arrives
    then is refused. *)
Theorem idle_server_admits (u : float64 -> Z) (response : Type)
    (initial : Z) (ratio : float64) :
  0 <= initial <= Int64.max_int64 ->
  (forall (es : list (event response)) s,
     count_arrivals es < 2 ^ 62 ->
     serve_all u es (mkServer (Limiter initial ratio) []) = Some s ->
     running s = [] ->
     exists l' ms t, enter (shared s) = Some (l', ms, Handling t)) /\
  (forall hs : list (outcome response),
     Z.of_nat (length hs) < 2 ^ 62 ->
     exists s,
       serve_all u (one_by_one hs) (mkServer (Limiter initial ratio) [])
       = Some s /\
       running s = [] /\
       inflight (shared s) = Z.of_nat (length hs)) /\
  (let s := mkServer (mkLimiter ratio 1 0) [mkTransaction 1 0] in
   serve u (@Arrive response) (mkServer (Limiter 0 ratio) []) = Some s /\
   enter (shared s) = Some (shared s, [(RejectedRequests, 1)],
                            Refused limitReached) /\
   serve u (@Arrive response) s = Some s).
Proof.
  intros Hi. split; [| split].
  - intros es s Hc Hs Hr.
    destruct (serve_all_books u response es _ s
                (boot_balanced initial ratio Hi)
                ltac:(cbn [shared Limiter inflight]; lia) Hs)
      as ((_ & _ & Hb & _) & _).
    rewrite Hr in Hb. cbn [length] in Hb.
    rewrite (enter_handles (shared s) ltac:(lia)). eauto.
  - intros hs Hc.
    destruct (serve_one_by_one u response hs _
                (boot_balanced initial ratio Hi) eq_refl
                ltac:(cbn [shared Limiter inflight]; lia))
      as (s & Es & _ & Hr & Hin).
    exists s. cbn [shared Limiter inflight] in Hin.
    split; [exact Es |]. split; [exact Hr | lia].
  - cbv zeta. repeat split; reflexivity.
Qed.

Lemma idle_server_admits_witness :
  (exists l' ms t,
     enter (mkLimiter ratio_half 1 1) = Some (l', ms, Handling t)) /\
  (exists s,
     serve_all indefinite
       (one_by_one [@Panicked unit; Returned None status.opaque])
       (mkServer (Limiter 0 ratio_half) []) = Some s /\
     running s = [] /\ inflight (shared s) = 2).
Proof.
  assert (H0 : 0 <= 0 <= Int64.max_int64) by (vm_compute; split; discriminate).
  destruct (idle_server_admits indefinite unit 0 ratio_half H0)
    as (Hidle & Hseq & _).
  split.
  - apply (Hidle [Arrive; Finished 0 Panicked]
             (mkServer (mkLimiter ratio_half 1 1) [])); vm_compute; reflexivity.
  - apply (Hseq [Panicked; Returned None status.opaque]).
    vm_compute. reflexivity.
Defined.

(** * The limiter under overload *)

(** For a limit [z] that binary64 represents exactly and a ratio in (0,1)
    the rounded product stays within [z]. *)
Lemma of_int64_below_self (z : Z) :
  0 < z < 2 ^ 53 -> Float64.below z 0 (Float64.of_int64 z).
Proof.
  intros Hz. destruct z as [| m | m]; try lia.
  unfold Float64.of_int64, binary_normalize, binary_round.
  set (e0 := fexp Float64.prec Float64.emax (Z.pos (digits2_pos m) + 0)).
  destruct (shl_align_spec m 0 e0) as [He Hmz].
  destruct (shl_align m 0 e0) as [mz ez]. cbn [fst snd] in He, Hmz.
  apply binary_round_aux_below;
    unfold Float64.prec, Float64.emax, emin; lia.
Qed.

Lemma mul_below_self (K : Z) (x r : float64) :
  0 < K < 2 ^ 53 -> Float64.below K 0 x ->
  Float64.in_unit_interval r = true ->
  Float64.below K 0 (Float64.mul x r).
Proof.
  intros HK Hx Hr.
  destruct (unit_interval_inv r Hr) as (mr & er & -> & He & Hm).
  destruct x as [s | s | | s mx ex]; try contradiction; [exact I |].
  destruct Hx as [Hex Hmx]. unfold Float64.mul, SFmul.
  apply binary_round_aux_below;
    try (unfold Float64.prec, Float64.emax, emin; lia).
  rewrite Pos2Z.inj_mul.
  assert (P1 : 0 < 2 ^ (0 - ex)) by pow_pos.
  assert (P2 : 0 < 2 ^ (- er)) by pow_pos.
  assert (Hmr : Z.pos mr <= 2 ^ (- er)) by (clear - Hm P2; lia).
  replace (0 - (ex + er)) with ((0 - ex) + (- er)) by lia.
  rewrite Z.pow_add_r, Z.mul_assoc by lia.
  apply Z.mul_le_mono_nonneg; lia.
Qed.

Lemma below_trunc (K : Z) (f : float64) :
  0 <= K -> Float64.below K 0 f ->
  exists q, Float64.trunc f = Some q /\ - K <= q <= K.
Proof.
  intros HK. destruct f as [s | s | | s m e]; try contradiction.
  - intros _. exists 0. split; [reflexivity | lia].
  - intros [He Hm]. unfold Float64.trunc. eexists; split; [reflexivity |].
    assert (Ha : 0 <= (if 0 <=? e then Z.pos m * 2 ^ e
                       else Z.pos m / 2 ^ (- e)) <= K).
    { destruct (0 <=? e) eqn:Ee.
      - assert (e = 0) by lia. subst e. change (2 ^ (0 - 0)) with 1 in Hm.
        change (2 ^ 0) with 1. lia.
      - assert (Hp : 0 < 2 ^ (- e)) by pow_pos.
        split; [apply Z.div_pos; lia |].
        apply Z.div_le_upper_bound; [lia |].
        replace (0 - e) with (- e) in Hm by lia. lia. }
    destruct s; lia.
Qed.

(** The backoff of a limit below [2^53] by a ratio in (0,1) is at most the
    limit. *)
Lemma backoff_le_limit (u : float64 -> Z) (l : limiter) :
  1 <= limit l < 2 ^ 53 ->
  Float64.in_unit_interval (backoffRatio l) = true ->
  backoff u l <= limit l.
Proof.
  intros Hl Hr. unfold backoff.
  destruct (below_trunc (limit l)
              (Float64.mul (Float64.of_int64 (limit l)) (backoffRatio l))
              ltac:(lia)) as (q & Hq & Hb).
  { apply mul_below_self; [lia | | exact Hr].
    apply of_int64_below_self. lia. }
  unfold Float64.to_int64. rewrite Hq.
  unfold Int64.min_int64, Int64.max_int64.
  replace ((- 2 ^ 63 <=? q) && (q <=? 2 ^ 63 - 1)) with true
    by (symmetry; apply andb_true_intro; split; lia).
  lia.
Qed.

(** What one [finish] can do to a limit in the exact range of binary64. *)
Lemma finish_limit_step (u : float64 -> Z) (tx : option transaction)
    (err : status.error) (l l' : limiter) :
  1 <= limit l < 2 ^ 53 ->
  Float64.in_unit_interval (backoffRatio l) = true ->
  finish u tx err l = Some l' ->
  1 <= limit l'
  <= limit l + (if overload (status.Code err) then 0 else 1).
Proof.
  intros Hl Hr. unfold finish. destruct (overload (status.Code err)).
  - destruct tx as [t |]; [| discriminate].
    destruct (limit l >=? tx_limit t); intros [= <-]; [| lia].
    pose proof (backoff_le_limit u l Hl Hr) as Hb. cbn.
    destruct (backoff u l <? 1) eqn:E; lia.
  - destruct (inflight l >? Int64.div (limit l) 2); intros [= <-]; [| lia].
    cbn. rewrite incr_below_max;
      unfold Int64.in_range, Int64.min_int64, Int64.max_int64; lia.
Qed.

Lemma count_other_nonneg (cs : list call) : 0 <= count_other cs.
Proof.
  induction cs as [| [| tx err] cs IH]; cbn [count_other]; [lia | lia |].
  destruct (overload (status.Code err)); lia.
Qed.

Lemma run_closed (u : float64 -> Z) (cs : list call) :
  forall l l',
    Float64.in_unit_interval (backoffRatio l) = true ->
    1 <= limit l -> limit l + count_other cs < 2 ^ 53 ->
    inflight l > limit l + count_other cs ->
    run u cs l = Some l' ->
    inflight l' = inflight l /\
    1 <= limit l' <= limit l + count_other cs.
Proof.
  induction cs as [| c cs IH]; intros l l' Hr H1 Hb Hi; cbn [run].
  - intros [= <-]. cbn [count_other]. lia.
  - pose proof (count_other_nonneg cs) as Hn.
    destruct c as [| tx err]; cbn [step count_other] in *.
    + rewrite (start_rejects l ltac:(lia)). cbn [fst]. now apply IH.
    + destruct (finish u tx err l) as [l1 |] eqn:Ef; [| discriminate].
      intros Hrun.
      assert (Hd : 0 <= (if overload (status.Code err) then 0 else 1))
        by (destruct (overload (status.Code err)); lia).
      pose proof (finish_limit_step u tx err l l1 ltac:(lia) Hr Ef) as Hs.
      pose proof (finish_inflight u tx err l l1 Ef) as Hin.
      pose proof (finish_backoffRatio u tx err l l1 Ef) as Hra.
      destruct (IH l1 l' ltac:(congruence) ltac:(lia) ltac:(lia)
                  ltac:(lia) Hrun) as [Hi' Hl'].
      lia.
Qed.

(** X7: a limiter that is over its limit stays shut until enough settles
    raise the limit; [inflight] itself is never given back.  With a backoff
    ratio in (0,1) and limits in the exact range of binary64, if [inflight]
    exceeds the limit by more than the number of [finish] calls in a
    sequence whose outcome is not an overload signal, then every [start] in
    the sequence is refused: [inflight] is unchanged at the end, the limit
    rose by at most that number, and the next [start] is refused as well.
    With overload settles only, refusal is permanent. *)
Theorem closed_until_settled (u : float64 -> Z) (cs : list call)
    (l l' : limiter) :
  Float64.in_unit_interval (backoffRatio l) = true ->
  1 <= limit l -> limit l + count_other cs < 2 ^ 53 ->
  inflight l > limit l + count_other cs ->
  run u cs l = Some l' ->
  inflight l' = inflight l /\
  1 <= limit l' <= limit l + count_other cs /\
  start l' = (l', (None, false)) /\
  (forall n, starts n l' = l').
Proof.
  intros Hr H1 Hb Hi Hrun.
  destruct (run_closed u cs l l' Hr H1 Hb Hi Hrun) as [Hi' Hl'].
  split; [exact Hi' |]. split; [exact Hl' |].
  split; [apply start_rejects | intros n; apply starts_rejected]; lia.
Qed.

Lemma closed_until_settled_witness :
  inflight (mkLimiter ratio_half 6 3) = inflight (mkLimiter ratio_half 6 4) /\
  1 <= limit (mkLimiter ratio_half 6 3)
  <= limit (mkLimiter ratio_half 6 4)
     + count_other
         [Start; Finish (Some (mkTransaction 1 4))
                   (status.withStatus codes.Unavailable);
          Start; Finish None status.nil; Start] /\
  start (mkLimiter ratio_half 6 3)
  = (mkLimiter ratio_half 6 3, (None, false)) /\
  (forall n, starts n (mkLimiter ratio_half 6 3) = mkLimiter ratio_half 6 3).
Proof.
  apply (closed_until_settled indefinite
           [Start; Finish (Some (mkTransaction 1 4))
                     (status.withStatus codes.Unavailable);
            Start; Finish None status.nil; Start]
           (mkLimiter ratio_half 6 4) (mkLimiter ratio_half 6 3)).
  - vm_compute. reflexivity.
  - cbn. lia.
  - vm_compute. reflexivity.
  - vm_compute. reflexivity.
  - vm_compute. reflexivity.
Defined.

(** X8: the room a limiter has left.  In any state with [int64] counters
    and a limit below the largest [int64], calls of [start] with no [finish]
    in between are admitted exactly [limit + 1 - inflight] times, none at
    all when [inflight] already exceeds the limit: call number [n] is
    admitted if and only if [n <= limit + 1 - inflight]. *)
Theorem remaining_capacity (l : limiter) (n : N) :
  wf l -> limit l < Int64.max_int64 -> (1 <= n)%N ->
  admitted_nth n l = (Z.of_N n <=? limit l + 1 - inflight l).
Proof.
  intros [Hi Hl] Hm Hn. unfold admitted_nth.
  destruct (Z_gt_le_dec (inflight l) (limit l)) as [Hgt | Hle].
  - rewrite starts_rejected, start_rejects by assumption. cbn.
    symmetry. apply Z.leb_gt. lia.
  - destruct (Z_le_gt_dec (Z.of_N n) (limit l + 1 - inflight l)) as [Hc | Hc].
    + rewrite starts_admitted by (assumption || lia).
      rewrite start_admits by (cbn; lia). cbn.
      symmetry. apply Z.leb_le. exact Hc.
    + set (k := Z.to_N (limit l + 1 - inflight l)).
      replace (N.pred n) with (N.pred n - k + k)%N by lia.
      rewrite starts_add.
      rewrite (starts_admitted k) by (assumption || lia).
      rewrite starts_rejected by (cbn; lia).
      rewrite start_rejects by (cbn; lia). cbn.
      symmetry. apply Z.leb_gt. lia.
Qed.

Lemma remaining_capacity_witness :
  admitted_nth 3 (mkLimiter ratio_half 7 9) = (3 <=? 9 + 1 - 7) /\
  admitted_nth 4 (mkLimiter ratio_half 7 9) = (4 <=? 9 + 1 - 7).
Proof.
  assert (W : wf (mkLimiter ratio_half 7 9))
    by (split; cbn; unfold Int64.in_range, Int64.min_int64, Int64.max_int64;
        lia).
  assert (M : limit (mkLimiter ratio_half 7 9) < Int64.max_int64)
    by (vm_compute; reflexivity).
  split.
  - apply (remaining_capacity (mkLimiter ratio_half 7 9) 3 W M). lia.
  - apply (remaining_capacity (mkLimiter ratio_half 7 9) 4 W M). lia.
Defined.

(** ** Rounding moves a value by at most half a unit *)

Lemma shr_1_half (M k : Z) (mrs : shr_record) :
  0 <= M -> 0 <= k ->
  Float64.shr_inv M k mrs -> shr_half M (k + 1) (shr_1 mrs).
Proof.
  intros HM Hk [Hm _].
  assert (Hp : 0 < 2 ^ k) by pow_pos.
  assert (Hnn : 0 <= M / 2 ^ k) by (apply Z.div_pos; lia).
  assert (Hsplit : M mod 2 ^ (k + 1)
                   = M mod 2 ^ k + 2 ^ k * ((M / 2 ^ k) mod 2)).
  { rewrite Z.pow_add_r by lia. change (2 ^ 1) with 2.
    apply Z.rem_mul_r; lia. }
  pose proof (Z.mod_pos_bound M (2 ^ k) Hp) as Bm.
  destruct mrs as [m r s]. cbn in Hm. subst m. unfold shr_half.
  rewrite Hsplit, Z.pow_add_r by lia. change (2 ^ 1) with 2.
  destruct (M / 2 ^ k) as [| p | p] eqn:Eq;
    [| destruct p as [p | p |] | lia]; cbn [shr_1 shr_r];
    try discriminate; intros _.
  - assert (Ho : Z.pos p~1 mod 2 = 1).
    { rewrite Pos2Z.inj_xI, Z.add_comm, Z.mul_comm, Z.mod_add by lia.
      reflexivity. }
    rewrite Ho. lia.
  - change (1 mod 2) with 1. lia.
Qed.

Lemma shr_fexp_near (M E : Z) :
  0 <= M ->
  exists n,
    0 <= n /\
    snd (shr_fexp Float64.prec Float64.emax M E loc_Exact) = E + n /\
    E + n = Z.max E (fexp Float64.prec Float64.emax (Zdigits2 M + E)) /\
    Float64.shr_inv M n
      (fst (shr_fexp Float64.prec Float64.emax M E loc_Exact)) /\
    shr_half M n (fst (shr_fexp Float64.prec Float64.emax M E loc_Exact)).
Proof.
  intros HM. unfold shr_fexp, shr. cbn [shr_record_of_loc].
  assert (H0 : Float64.shr_inv M 0 (Build_shr_record M false false) /\
               shr_half M 0 (Build_shr_record M false false))
    by (split; [apply shr_inv_0 | intros H; discriminate H]).
  destruct (fexp Float64.prec Float64.emax (Zdigits2 M + E) - E)
    as [| p | p] eqn:Ed.
  - exists 0. cbn [fst snd]. repeat (split; [lia |]). exact H0.
  - exists (Z.pos p). cbn [fst snd].
    split; [lia |]. split; [reflexivity |]. split; [lia |].
    apply (iter_pos_inv shr_1
             (fun k x => Float64.shr_inv M k x /\ shr_half M k x)
             (fun k x Hk H =>
                conj (shr_1_inv M k x HM Hk (proj1 H))
                     (shr_1_half M k x HM Hk (proj1 H)))
             p 0 _ (Z.le_refl 0) H0).
  - exists 0. cbn [fst snd]. repeat (split; [lia |]). exact H0.
Qed.

Lemma round_nearest_even_near (M n : Z) (mrs : shr_record) :
  0 <= M -> 0 <= n ->
  Float64.shr_inv M n mrs -> shr_half M n mrs ->
  0 <= round_nearest_even (shr_m mrs) (loc_of_shr_record mrs) /\
  2 * round_nearest_even (shr_m mrs) (loc_of_shr_record mrs) * 2 ^ n
  <= 2 * M + (if n =? 0 then 0 else 2 ^ n).
Proof.
  intros HM Hn [Hm _] Hh.
  assert (Hp : 0 < 2 ^ n) by pow_pos.
  pose proof (Z.div_mod M (2 ^ n) ltac:(lia)) as Ed.
  pose proof (Z.mod_pos_bound M (2 ^ n) Hp) as Bm.
  assert (Hq : 0 <= M / 2 ^ n) by (apply Z.div_pos; lia).
  destruct mrs as [m r s]. cbn in Hm. subst m. unfold shr_half in Hh.
  cbn [shr_r] in Hh. cbn [shr_m loc_of_shr_record].
  assert (Hs : 0 <= (if n =? 0 then 0 else 2 ^ n))
    by (destruct (n =? 0); lia).
  destruct r.
  - specialize (Hh eq_refl).
    destruct (n =? 0) eqn:En.
    + apply Z.eqb_eq in En. subst n. change (2 ^ 0) with 1 in *. lia.
    + destruct s; cbn [round_nearest_even];
        [| destruct (Z.even (M / 2 ^ n))]; nia.
  - destruct s; cbn [round_nearest_even]; nia.
Qed.

(** The result of rounding [M * 2 ^ E]: its exponent is [E + k] for some
    [k] at least the number of bits dropped, and its value exceeds the exact
    one by at most half a unit of the first rounding. *)
Lemma binary_round_aux_near (s : bool) (M E : Z) :
  0 < M ->
  match binary_round_aux Float64.prec Float64.emax s M E loc_Exact with
  | S754_finite _ m e =>
      exists n k,
        0 <= n <= k /\ e = E + k /\
        E + n = Z.max E (fexp Float64.prec Float64.emax (Zdigits2 M + E)) /\
        2 * Z.pos m * 2 ^ k <= 2 * M + (if n =? 0 then 0 else 2 ^ n)
  | _ => True
  end.
Proof.
  intros HM. unfold binary_round_aux.
  destruct (shr_fexp_near M E ltac:(lia)) as (n & Hn & He' & Hmax & Hinv & Hh).
  destruct (shr_fexp Float64.prec Float64.emax M E loc_Exact) as [mrs' e'].
  cbn [fst snd] in He', Hinv, Hh. subst e'.
  destruct (round_nearest_even_near M n mrs' ltac:(lia) Hn Hinv Hh)
    as [Hm2 Hnear].
  set (m2 := round_nearest_even (shr_m mrs') (loc_of_shr_record mrs')) in *.
  destruct (shr_fexp_exact m2 (E + n) Hm2)
    as (n2 & Hn2 & He'' & _ & Hm3 & _).
  destruct (shr_fexp Float64.prec Float64.emax m2 (E + n) loc_Exact)
    as [mrs'' e''].
  cbn [fst snd] in He'', Hm3. subst e''.
  destruct (shr_m mrs'') as [| m3 | m3] eqn:E3; [exact I | | exact I].
  destruct (E + n + n2 <=? Float64.emax - Float64.prec); [| exact I].
  exists n, (n + n2). split; [lia |]. split; [lia |]. split; [exact Hmax |].
  assert (Hp2 : 0 < 2 ^ n2) by pow_pos.
  assert (Hp : 0 < 2 ^ n) by pow_pos.
  pose proof (Z.div_mod m2 (2 ^ n2) ltac:(lia)) as Ed.
  pose proof (Z.mod_pos_bound m2 (2 ^ n2) Hp2) as Bm.
  rewrite <- Hm3 in Ed. rewrite Z.pow_add_r by lia.
  assert (Z.pos m3 * 2 ^ n2 <= m2) by lia.
  assert (Z.pos m3 * 2 ^ n2 * 2 ^ n <= m2 * 2 ^ n)
    by (apply Z.mul_le_mono_nonneg_r; lia).
  lia.
Qed.

Lemma digits2_le_double (m : positive) :
  2 ^ Z.pos (digits2_pos m) <= 2 * Z.pos m.
Proof.
  rewrite digits2_size. change 2 with (Z.pos 2) at 1.
  rewrite <- Pos2Z.inj_pow. change (2 * Z.pos m) with (Z.pos m~0).
  apply Pos2Z.pos_le_pos, Pos.size_le.
Qed.

(** For an exactly represented limit [z] and a ratio in (0,1) the rounded
    product stays strictly below [z]. *)
Lemma mul_lt_self (z : Z) (x r : float64) :
  1 <= z < 2 ^ 53 -> Float64.below z 0 x ->
  Float64.in_unit_interval r = true ->
  match Float64.mul x r with
  | S754_zero _ => True
  | S754_finite _ m e => e <= 0 /\ Z.pos m < z * 2 ^ (- e)
  | S754_infinity _ | S754_nan => False
  end.
Proof.
  intros Hz Hx Hr.
  pose proof (mul_below_self z x r ltac:(lia) Hx Hr) as Hb.
  destruct (unit_interval_inv r Hr) as (mr & er & -> & He & Hm).
  destruct x as [sx | sx | | sx mx ex]; try contradiction; [exact I |].
  destruct Hx as [Hex Hmx]. unfold Float64.mul, SFmul in *.
  pose proof (binary_round_aux_near (xorb sx false) (Z.pos (mx * mr))
                (ex + er) ltac:(lia)) as Hn.
  destruct (binary_round_aux Float64.prec Float64.emax (xorb sx false)
              (Z.pos (mx * mr)) (ex + er) loc_Exact)
    as [s | s | | s m e]; try exact Hb.
  destruct Hb as [He0 _]. destruct Hn as (n & k & Hnk & Hek & Hmax & Hnear).
  split; [exact He0 |].
  rewrite Pos2Z.inj_mul in *.
  set (M := Z.pos mx * Z.pos mr) in *.
  set (A := 2 ^ (0 - ex)) in *. set (B := 2 ^ (- er)) in *.
  assert (HA : 0 < A) by (unfold A; pow_pos).
  assert (HB : 2 ^ 52 <= B) by (unfold B; apply Z.pow_le_mono_r; lia).
  assert (HT : 2 ^ (- (ex + er)) = A * B).
  { unfold A, B. rewrite <- Z.pow_add_r by lia. f_equal. lia. }
  assert (HK : 0 < 2 ^ k) by pow_pos.
  assert (HQ : 2 ^ (- e) * 2 ^ k = A * B).
  { rewrite <- HT, <- Z.pow_add_r by lia. f_equal. lia. }
  assert (H1 : M * 2 ^ 53 <= z * A * ((2 ^ 53 - 1) * B)).
  { unfold M. rewrite <- Z.mul_assoc.
    apply Z.mul_le_mono_nonneg; lia. }
  assert (HM : M < z * (A * B)).
  { apply (Z.mul_lt_mono_pos_r (2 ^ 53)); [lia |]. nia. }
  assert (HS : (if n =? 0 then 0 else 2 ^ n) * 2 ^ 53 < 2 * (z * (A * B))).
  { destruct (n =? 0) eqn:En; [nia |].
    apply Z.eqb_neq in En.
    assert (Hfe : ex + er + n
                  = fexp Float64.prec Float64.emax
                      (Zdigits2 M + (ex + er))) by lia.
    unfold fexp, emin, Float64.prec, Float64.emax in Hfe.
    rewrite <- Z.pow_add_r by lia.
    destruct (Z.max_spec (Zdigits2 M + (ex + er) - 53) (3 - 1024 - 53))
      as [[_ Hmx'] | [_ Hmx']]; rewrite Hmx' in Hfe.
    - (* the subnormal exponent *)
      assert (2 ^ (n + 53) < 2 ^ (- (ex + er)))
        by (apply Z.pow_lt_mono_r; lia).
      rewrite HT in *. nia.
    - (* [n] is the number of digits beyond 53 *)
      assert (Hd : n + 53 = Zdigits2 M) by lia.
      rewrite Hd. unfold M at 1. rewrite <- Pos2Z.inj_mul. cbn [Zdigits2].
      pose proof (digits2_le_double (mx * mr)) as D.
      rewrite Pos2Z.inj_mul in D. fold M in D. lia. }
  apply (Z.mul_lt_mono_pos_r (2 ^ k)); [exact HK |].
  rewrite <- Z.mul_assoc, HQ.
  apply (Z.mul_lt_mono_pos_r (2 * 2 ^ 53)); [lia |].
  assert (H2 : 2 * Z.pos m * 2 ^ k * 2 ^ 53
               <= (2 * M + (if n =? 0 then 0 else 2 ^ n)) * 2 ^ 53)
    by (apply Z.mul_le_mono_nonneg_r; lia).
  nia.
Qed.

Lemma backoff_lt_limit (u : float64 -> Z) (l : limiter) :
  1 <= limit l < 2 ^ 53 ->
  Float64.in_unit_interval (backoffRatio l) = true ->
  backoff u l < limit l.
Proof.
  intros Hl Hr. unfold backoff.
  pose proof (mul_lt_self (limit l) (Float64.of_int64 (limit l))
                (backoffRatio l) Hl
                (of_int64_below_self (limit l) ltac:(lia)) Hr) as H.
  destruct (below_trunc (limit l)
              (Float64.mul (Float64.of_int64 (limit l)) (backoffRatio l))
              ltac:(lia)) as (q & Hq & Hb).
  { apply mul_below_self; [lia | | exact Hr].
    apply of_int64_below_self. lia. }
  unfold Float64.to_int64. rewrite Hq.
  unfold Int64.min_int64, Int64.max_int64.
  replace ((- 2 ^ 63 <=? q) && (q <=? 2 ^ 63 - 1)) with true
    by (symmetry; apply andb_true_intro; split; lia).
  destruct (Float64.mul (Float64.of_int64 (limit l)) (backoffRatio l))
    as [s | s | | s m e]; try contradiction.
  - injection Hq as <-. lia.
  - destruct H as [He Hm]. unfold Float64.trunc in Hq. cbv zeta in Hq.
    set (a := if 0 <=? e then Z.pos m * 2 ^ e else Z.pos m / 2 ^ (- e)) in *.
    assert (Ha : 0 <= a < limit l).
    { subst a. destruct (0 <=? e) eqn:Ee.
      - assert (e = 0) by lia. subst e. change (2 ^ (- 0)) with 1 in Hm.
        change (2 ^ 0) with 1. lia.
      - assert (Hp : 0 < 2 ^ (- e)) by pow_pos.
        split; [apply Z.div_pos; lia |].
        apply Z.div_lt_upper_bound; lia. }
    clearbody a. injection Hq as <-. destruct s; lia.
Qed.

(** X9: the multiplicative decrease is a decrease.  For a limit from 1 to
    below [2^53], which binary64 holds exactly, and a backoff ratio in
    (0,1), a [finish] with an overload signal leaves a limit between 1 and
    the limit it found; when the guard lets it act, on a transaction
    recorded at or below the current limit, a limit of 2 or more comes out
    strictly smaller: the rounding of the binary64 product to the nearest
    value never gives the limit back.  [inflight] and the ratio are
    untouched. *)
Theorem overload_lowers_limit (u : float64 -> Z) (t : transaction)
    (err : status.error) (l l' : limiter) :
  1 <= limit l < 2 ^ 53 ->
  Float64.in_unit_interval (backoffRatio l) = true ->
  overload (status.Code err) = true ->
  finish u (Some t) err l = Some l' ->
  1 <= limit l' <= limit l /\
  (tx_limit t <= limit l -> 2 <= limit l -> limit l' < limit l) /\
  inflight l' = inflight l /\ backoffRatio l' = backoffRatio l.
Proof.
  intros Hl Hr Ho Hf.
  pose proof (finish_limit_step u (Some t) err l l' Hl Hr Hf) as H.
  rewrite Ho in H.
  split; [lia |]. split; [| split].
  - intros Hg H2. rewrite (finish_overload u t err l Ho) in Hf.
    destruct (limit l >=? tx_limit t) eqn:E; [| lia].
    injection Hf as <-. cbn.
    pose proof (backoff_lt_limit u l Hl Hr). lia.
  - exact (finish_inflight u _ _ _ _ Hf).
  - exact (finish_backoffRatio u _ _ _ _ Hf).
Qed.

Lemma overload_lowers_limit_witness :
  1 <= limit (mkLimiter ratio_third 7 2) <= limit (mkLimiter ratio_third 7 6) /\
  (6 <= limit (mkLimiter ratio_third 7 6) ->
   2 <= limit (mkLimiter ratio_third 7 6) ->
   limit (mkLimiter ratio_third 7 2) < limit (mkLimiter ratio_third 7 6)) /\
  inflight (mkLimiter ratio_third 7 2) = inflight (mkLimiter ratio_third 7 6) /\
  backoffRatio (mkLimiter ratio_third 7 2)
  = backoffRatio (mkLimiter ratio_third 7 6).
Proof.
  apply (overload_lowers_limit indefinite (mkTransaction 7 6)
           (status.withStatus codes.DeadlineExceeded)
           (mkLimiter ratio_third 7 6) (mkLimiter ratio_third 7 2)).
  - cbn. lia.
  - vm_compute. reflexivity.
  - reflexivity.
  - vm_compute. reflexivity.
Defined.

Lemma finish_overload_settled (u : float64 -> Z) (t : transaction)
    (err : status.error) (l l1 : limiter) :
  1 <= limit l < 2 ^ 53 ->
  Float64.in_unit_interval (backoffRatio l) = true ->
  l1 = set_limit l (Z.max 1 (backoff u l)) ->
  tx_limit t = limit l -> overload (status.Code err) = true ->
  finish u (Some t) err l1 = Some l1.
Proof.
  intros Hl Hr -> Ht Ho. rewrite (finish_overload u t err _ Ho).
  pose proof (backoff_lt_limit u l Hl Hr) as Hb.
  cbn [limit set_limit]. rewrite Ht.
  destruct (Z.max 1 (backoff u l) >=? limit l) eqn:E; [| reflexivity].
  (* only the limit 1 passes the guard again, and it backs off to 1 *)
  assert (H1 : limit l = 1) by lia.
  assert (Hm : Z.max 1 (backoff u l) = 1) by lia.
  rewrite Hm. f_equal. unfold set_limit. cbn. f_equal.
  assert (Eb : backoff u (mkLimiter (backoffRatio l) (inflight l) 1)
               = backoff u l).
  { unfold backoff. cbn. now rewrite H1. }
  rewrite Eb. exact Hm.
Qed.

(** X10: a burst of overload signals shrinks the limit once.  For a limit
    from 1 to below [2^53] and a backoff ratio in (0,1), settling any
    non-empty sequence of transactions that were all admitted at the
    current limit, each with an overload signal, leaves the limiter exactly
    as the first of these settles alone leaves it: the guard
    [l.limit >= tx.limit] stops the others. *)
Theorem overload_burst_decreases_once (u : float64 -> Z) (l : limiter)
    (t : transaction) (err : status.error)
    (rest : list (transaction * status.error)) :
  1 <= limit l < 2 ^ 53 ->
  Float64.in_unit_interval (backoffRatio l) = true ->
  Forall (fun te => tx_limit (fst te) = limit l /\
                    overload (status.Code (snd te)) = true)
    ((t, err) :: rest) ->
  run u (map (fun te => Finish (Some (fst te)) (snd te)) ((t, err) :: rest)) l
  = finish u (Some t) err l /\
  finish u (Some t) err l = Some (set_limit l (Z.max 1 (backoff u l))).
Proof.
  intros Hl Hr Hall. inversion Hall as [| te ts [Ht Ho] Hrest]; subst.
  cbn [fst snd] in Ht, Ho.
  assert (E1 : finish u (Some t) err l
               = Some (set_limit l (Z.max 1 (backoff u l)))).
  { rewrite (finish_overload u t err l Ho), Ht.
    destruct (limit l >=? limit l) eqn:E; [reflexivity | lia]. }
  split; [| exact E1].
  cbn [map run step fst snd]. rewrite E1.
  set (l1 := set_limit l (Z.max 1 (backoff u l))).
  clear Hall. induction Hrest as [| [t' err'] ts' [Ht' Ho'] _ IH];
    cbn [map run step fst snd]; [reflexivity |].
  cbn [fst snd] in Ht', Ho'.
  now rewrite (finish_overload_settled u t' err' l l1 Hl Hr eq_refl Ht' Ho').
Qed.

Lemma overload_burst_decreases_once_witness :
  run indefinite
    [Finish (Some (mkTransaction 3 8)) (status.withStatus codes.Canceled);
     Finish (Some (mkTransaction 1 8)) (status.withStatus codes.Unavailable);
     Finish (Some (mkTransaction 2 8))
       (status.withStatus codes.DeadlineExceeded)]
    (mkLimiter ratio_half 9 8)
  = finish indefinite (Some (mkTransaction 3 8))
      (status.withStatus codes.Canceled) (mkLimiter ratio_half 9 8) /\
  finish indefinite (Some (mkTransaction 3 8))
    (status.withStatus codes.Canceled) (mkLimiter ratio_half 9 8)
  = Some (set_limit (mkLimiter ratio_half 9 8)
            (Z.max 1 (backoff indefinite (mkLimiter ratio_half 9 8)))).
Proof.
  apply (overload_burst_decreases_once indefinite (mkLimiter ratio_half 9 8)
           (mkTransaction 3 8) (status.withStatus codes.Canceled)
           [(mkTransaction 1 8, status.withStatus codes.Unavailable);
            (mkTransaction 2 8, status.withStatus codes.DeadlineExceeded)]).
  - cbn. lia.
  - vm_compute. reflexivity.
  - repeat constructor.
Defined.

(** X11: where a panic can and cannot come from.  [finish] panics exactly
    when it is handed a nil transaction together with an overload signal,
    the one place where it reads through the pointer.  The interceptor never
    gets there: for every limiter and every handler outcome its own code
    runs to the end, because [start] hands out a transaction whenever it
    admits and the deferred [finish] is given the nil error. *)
Theorem interceptor_never_panics (u : float64 -> Z) (response : Type)
    (h : outcome response) (err : status.error) (l : limiter) :
  (finish u None err l = None <-> overload (status.Code err) = true) /\
  (forall t, finish u (Some t) err l <> None) /\
  interceptor u h l <> None /\
  (forall s : server, serve u (@Arrive response) s <> None) /\
  (forall (s : server) i,
     serve u (Finished i h) s <> None <-> (i < length (running s))%nat).
Proof.
  split; [apply finish_nil_transaction |].
  split.
  { intros t. destruct (finish_returns u t err l) as [l' ->]. discriminate. }
  assert (Hd : forall t l0, deferred u t l0 <> None).
  { intros t l0. unfold deferred.
    destruct (finish_returns u t status.nil l0) as [l' ->]. discriminate. }
  assert (He : forall l0,
            (exists ms, enter l0 = Some (l0, ms, Refused limitReached)) \/
            (exists l1 ms t, enter l0 = Some (l1, ms, Handling t))).
  { intros l0. destruct (Z_gt_le_dec (inflight l0) (limit l0)) as [H | H].
    - left. rewrite (enter_refuses l0 H). eauto.
    - right. rewrite (enter_handles l0 H). eauto. }
  split; [| split].
  - unfold interceptor.
    destruct (He l) as [(ms & ->) | (l1 & ms & t & ->)]; [discriminate |].
    specialize (Hd t l1). destruct (deferred u t l1); [discriminate | tauto].
  - intros s. cbn [serve].
    destruct (He (shared s)) as [(ms & ->) | (l1 & ms & t & ->)]; discriminate.
  - intros s i. cbn [serve]. rewrite <- nth_error_Some.
    destruct (nth_error (running s) i) as [t |]; [| tauto].
    specialize (Hd t (shared s)).
    destruct (deferred u t (shared s)); [| tauto].
    split; discriminate.
Qed.

Lemma interceptor_never_panics_witness :
  finish indefinite None (status.withStatus codes.Canceled)
    (Limiter 4 ratio_half) = None /\
  serve indefinite (Finished 0 (@Panicked unit))
    (mkServer (mkLimiter ratio_half 1 4) [mkTransaction 1 4]) <> None.
Proof.
  destruct (interceptor_never_panics indefinite unit Panicked
              (status.withStatus codes.Canceled) (Limiter 4 ratio_half))
    as (Hn & _ & _ & _ & Hs).
  split.
  - apply Hn. reflexivity.
  - apply Hs. cbn. lia.
Defined.

(** One request served alone, in closed form. *)
Lemma serve_one_exact (u : float64 -> Z) (response : Type)
    (h : outcome response) (s : server) :
  balanced s -> running s = [] -> inflight (shared s) + 1 < 2 ^ 62 ->
  serve_all u [Arrive; Finished 0 h] s
  = Some (mkServer
            (mkLimiter (backoffRatio (shared s)) (inflight (shared s) + 1)
               (if inflight (shared s) + 1 >? Z.quot (limit (shared s)) 2
                then limit (shared s) + 1 else limit (shared s)))
            []).
Proof.
  intros Hb Hr Hlt. destruct s as [l rs]. cbn [shared running] in *. subst rs.
  destruct Hb as (Hl & Hn & Hle & _). cbn [shared running length] in *.
  assert (Hri : Int64.in_range (inflight l))
    by (unfold Int64.in_range, Int64.min_int64, Int64.max_int64; lia).
  assert (Hrl : Int64.in_range (limit l))
    by (unfold Int64.in_range, Int64.min_int64, Int64.max_int64 in *; lia).
  assert (E1 : serve u (@Arrive response) (mkServer l [])
               = Some (mkServer (set_inflight l (inflight l + 1))
                         [mkTransaction (inflight l + 1) (limit l)])).
  { cbn [serve shared running]. rewrite (enter_handles l ltac:(lia)).
    now rewrite (incr_below_max _ Hri ltac:(unfold Int64.max_int64; lia)). }
  cbn [serve_all]. rewrite E1. cbn [serve shared running nth_error].
  unfold deferred. rewrite finish_other by reflexivity.
  cbn [inflight limit set_inflight firstn skipn app].
  rewrite (div_two _ Hrl).
  destruct (inflight l + 1 >? Z.quot (limit l) 2) eqn:Eg; [| reflexivity].
  assert (Hmax : limit l < Int64.max_int64).
  { unfold Int64.max_int64 in *.
    destruct (Z.eq_dec (limit l) (2 ^ 63 - 1)) as [E | E]; [| lia].
    exfalso. rewrite E in Eg.
    change (Z.quot (2 ^ 63 - 1) 2) with (2 ^ 62 - 1) in Eg. lia. }
  unfold set_limit. cbn. now rewrite (incr_below_max _ Hrl Hmax).
Qed.

Lemma serial_limit (u : float64 -> Z) (response : Type)
    (hs : list (outcome response)) :
  forall s s',
    balanced s -> running s = [] ->
    inflight (shared s) + Z.of_nat (length hs) < 2 ^ 62 ->
    serve_all u (one_by_one hs) s = Some s' ->
    limit (shared s')
    = limit (shared s)
      + Z.max 0 (Z.of_nat (length hs)
                 - Z.max 0 (Z.quot (limit (shared s)) 2 - inflight (shared s))).
Proof.
  induction hs as [| h hs IH]; intros s s' Hb Hr Hc.
  - cbn [one_by_one serve_all length]. intros [= <-]. lia.
  - cbn [length] in Hc |- *. rewrite Nat2Z.inj_succ in Hc |- *.
    destruct (serve_one u response h s Hb Hr ltac:(lia))
      as (s1 & E1 & Hb1 & Hr1 & Hi1).
    pose proof (serve_one_exact u response h s Hb Hr ltac:(lia)) as Ex.
    rewrite E1 in Ex. injection Ex as Ex.
    intros Hrun.
    assert (Hrun1 : serve_all u (one_by_one hs) s1 = Some s').
    { cbn [one_by_one serve_all] in *.
      destruct (serve u Arrive s) as [sa |]; [| discriminate].
      destruct (serve u (Finished 0 h) sa) as [sb |]; [| discriminate].
      injection E1 as ->. exact Hrun. }
    rewrite (IH s1 s' Hb1 Hr1 ltac:(lia) Hrun1).
    assert (El : limit (shared s1)
                 = if inflight (shared s) + 1 >? Z.quot (limit (shared s)) 2
                   then limit (shared s) + 1 else limit (shared s))
      by (rewrite Ex; reflexivity).
    destruct Hb as (Hl & _).
    pose proof (Z.quot_rem' (limit (shared s)) 2) as Eq.
    pose proof (Z.rem_bound_pos (limit (shared s)) 2 ltac:(lia) ltac:(lia))
      as Br.
    pose proof (Z.quot_rem' (limit (shared s) + 1) 2) as Eq'.
    pose proof (Z.rem_bound_pos (limit (shared s) + 1) 2 ltac:(lia)
                  ltac:(lia)) as Br'.
    rewrite Hi1, El.
    destruct (inflight (shared s) + 1 >? Z.quot (limit (shared s)) 2) eqn:Eg;
      lia.
Qed.

(** X12: under serial load the limit climbs with the number of requests.
    On a server started with an initial limit [c] that is a natural
    [int64], [n] requests served one after the other, fewer than [2^62],
    leave the limit at [c + max 0 (n - c / 2)] whatever the handlers
    yield: once [inflight], which is never given back, has passed half the
    initial limit, every completed request raises the limit by one. *)
Theorem serial_load_raises_limit (u : float64 -> Z) (response : Type)
    (initial : Z) (ratio : float64) (hs : list (outcome response))
    (s : server) :
  0 <= initial <= Int64.max_int64 ->
  Z.of_nat (length hs) < 2 ^ 62 ->
  serve_all u (one_by_one hs) (mkServer (Limiter initial ratio) []) = Some s ->
  limit (shared s)
  = initial + Z.max 0 (Z.of_nat (length hs) - Z.quot initial 2) /\
  inflight (shared s) = Z.of_nat (length hs).
Proof.
  intros Hi Hc Hs.
  pose proof (serial_limit u response hs _ s (boot_balanced initial ratio Hi)
                eq_refl ltac:(cbn [shared Limiter inflight]; lia) Hs) as Hl.
  cbn [shared Limiter inflight limit] in Hl.
  pose proof (Z.quot_rem' initial 2) as Eq.
  pose proof (Z.rem_bound_pos initial 2 ltac:(lia) ltac:(lia)) as Br.
  split; [lia |].
  destruct (serve_one_by_one u response hs _ (boot_balanced initial ratio Hi)
              eq_refl ltac:(cbn [shared Limiter inflight]; lia))
    as (s2 & Es & _ & _ & Hin).
  rewrite Hs in Es. injection Es as <-.
  cbn [shared Limiter inflight] in Hin. lia.
Qed.

Lemma serial_load_raises_limit_witness :
  limit (mkLimiter ratio_half 5 7) = 4 + Z.max 0 (5 - Z.quot 4 2) /\
  inflight (mkLimiter ratio_half 5 7) = 5.
Proof.
  assert (H4 : 0 <= 4 <= Int64.max_int64) by (vm_compute; split; discriminate).
  apply (serial_load_raises_limit indefinite unit 4 ratio_half
           [Panicked; Returned None (status.withStatus codes.Unavailable);
            Returned (Some tt) status.nil; Panicked; Panicked]
           (mkServer (mkLimiter ratio_half 5 7) []) H4).
  - vm_compute. reflexivity.
  - vm_compute. reflexivity.
Defined.
